(** * Real-time synchronisation layer of the URL-shortener client

    A shallow embedding of
      - [src/hooks/useUrls.ts]      (the record synchroniser, hook [useUrls]),
      - the socket helper            (class [SocketManager]),
      - [src/app/helpers/auth.ts]   (class [AuthManager]),
    together with the properties of these three components.

    Conventions.  A JavaScript [number] that holds an identifier, a counter,
    a delay or a timestamp is an integer and is modelled as [Z] (such values
    are exact in IEEE doubles below 2^53); where the code adds counters, the
    addition is the rounded one of doubles (module [Number]).  Code that
    mutates component state,
    may throw, and is wrapped in [try]/[catch] is written in a small state and
    exception monad [eff]; React's [setUrls (prev => ...)] is a state update
    with the function it is given. *)

From Stdlib Require Import Ascii.
From stdpp Require Import base list strings gmap.

Local Open Scope Z_scope.

(** ** A state and exception monad for the imperative code *)

Module Eff.

(** How a JavaScript statement completes: normally with a value, or abruptly
    with a thrown error. *)
Inductive completion (E A : Type) : Type :=
| Normal (a : A)
| Throw (e : E).
Arguments Normal {E A} a.
Arguments Throw {E A} e.

Definition eff (S E A : Type) : Type := S -> S * completion E A.

Section Ops.
Context {S E : Type}.

Definition ret {A} (a : A) : eff S E A := fun s => (s, Normal a).

Definition bind {A B} (m : eff S E A) (k : A -> eff S E B) : eff S E B :=
  fun s =>
    match m s with
    | (s', Normal a) => k a s'
    | (s', Throw e) => (s', Throw e)
    end.

Definition throw {A} (e : E) : eff S E A := fun s => (s, Throw e).

(** [try { body } catch (e) { handler e }]: state changes made by [body]
    before it throws are kept. *)
Definition try_catch {A} (body : eff S E A) (handler : E -> eff S E A) : eff S E A :=
  fun s =>
    match body s with
    | (s', Normal a) => (s', Normal a)
    | (s', Throw e) => handler e s'
    end.

Definition get : eff S E S := fun s => (s, Normal s).
Definition modify (f : S -> S) : eff S E unit := fun s => (f s, Normal tt).

(** [xs.forEach(f)]: an exception thrown by [f] ends the iteration. *)
Fixpoint forEach {A} (xs : list A) (f : A -> eff S E unit) : eff S E unit :=
  match xs with
  | [] => ret tt
  | x :: xs' => bind (f x) (fun _ => forEach xs' f)
  end.

Definition exec {A} (m : eff S E A) (s : S) : S := fst (m s).
Definition result {A} (m : eff S E A) (s : S) : completion E A := snd (m s).
End Ops.

End Eff.

Import Eff.

Declare Scope eff_scope.
Delimit Scope eff_scope with eff.
Notation "x <- m ;; k" := (bind m (fun x => k))
  (at level 20, m at level 99, k at level 200, only parsing) : eff_scope.
Notation "m ;; k" := (bind m (fun _ => k))
  (at level 100, k at level 200, only parsing) : eff_scope.

(** A thrown JavaScript error: [Error], [ApiError], ... *)
Record JsError := { message : string; status : option Z }.

(** [s || fallback] on strings: the empty string is falsy. *)
Definition str_or (s fallback : string) : string :=
  if decide (s = "") then fallback else s.

(** ** Data model ([src/types/auth.ts], [src/types/url.ts]) *)

Module User.
Record t := mk {
  id : Z;
  username : string;
  email : string;
  createdAt : string;
  updatedAt : string }.
End User.

Module ShortUrl.
Record t := mk {
  id : Z;
  longUrl : string;
  shortCode : string;
  expirationDate : option string;
  clicksTotal : Z;
  user : User.t;
  createdAt : string;
  updatedAt : string;
  isExpired : option bool }.

(** [{ ...url, clicksTotal: n }] *)
Definition with_clicksTotal (url : t) (n : Z) : t :=
  {| id := id url; longUrl := longUrl url; shortCode := shortCode url;
     expirationDate := expirationDate url; clicksTotal := n;
     user := user url; createdAt := createdAt url;
     updatedAt := updatedAt url; isExpired := isExpired url |}.

(** Two records agree on every field except, possibly, the click counter. *)
Definition same_but_clicks (a b : t) : Prop :=
  id a = id b /\ longUrl a = longUrl b /\ shortCode a = shortCode b /\
  expirationDate a = expirationDate b /\ user a = user b /\
  createdAt a = createdAt b /\ updatedAt a = updatedAt b /\
  isExpired a = isExpired b.
End ShortUrl.

(** ** The record synchroniser: hook [useUrls] ([src/hooks/useUrls.ts]) *)

Module UseUrls.

Inductive Toast :=
| ToastSuccess (msg : string)
| ToastError (msg : string)
| ToastInfo (shortCode : string) (total : Z).

(** The hook's React state, and the notifications shown so far. *)
Record State := mkState {
  urls : list ShortUrl.t;
  isLoading : bool;
  error : option string;
  toasts : list Toast }.

Definition Hook := eff State JsError.

Definition setUrls (f : list ShortUrl.t -> list ShortUrl.t) : Hook unit :=
  modify (fun st => mkState (f (urls st)) (isLoading st) (error st) (toasts st)).

Definition setIsLoading (b : bool) : Hook unit :=
  modify (fun st => mkState (urls st) b (error st) (toasts st)).

Definition setError (e : option string) : Hook unit :=
  modify (fun st => mkState (urls st) (isLoading st) e (toasts st)).

Definition toast (t : Toast) : Hook unit :=
  modify (fun st => mkState (urls st) (isLoading st) (error st) (toasts st ++ [t])).

(** [await p] for a gateway promise whose settlement is given: a rejected
    promise throws at the [await]. *)
Definition await {A} (settled : completion JsError A) : Hook A :=
  fun st => (st, settled).

Local Open Scope eff_scope.

(** [fetchUrls]; the response body is [response.data] when it is an array. *)
Definition fetchUrls (getUserUrls : completion JsError (option (list ShortUrl.t))) : Hook unit :=
  setIsLoading true ;;
  setError None ;;
  try_catch
    (data <- await getUserUrls ;;
     setUrls (fun _ => match data with Some l => l | None => [] end))
    (fun err =>
       setError (Some (str_or (message err) "Errore nel caricamento degli URL")) ;;
       toast (ToastError "Errore nel caricamento degli URL")) ;;
  setIsLoading false.

(** [createUrl]; [createShortUrl] is the settled gateway call. *)
Definition createUrl (createShortUrl : completion JsError ShortUrl.t) : Hook ShortUrl.t :=
  try_catch
    (newUrl <- await createShortUrl ;;
     setUrls (fun prev => newUrl :: prev) ;;
     toast (ToastSuccess "URL abbreviato creato con successo!") ;;
     ret newUrl)
    (fun err =>
       toast (ToastError (str_or (message err) "Errore nella creazione dell'URL")) ;;
       throw err).

(** [deleteUrl]; [deleteShortUrl] is the settled gateway call. *)
Definition deleteUrl (deleteShortUrl : completion JsError unit) (id : Z) : Hook unit :=
  try_catch
    (await deleteShortUrl ;;
     setUrls (fun prev => filter (fun url => ShortUrl.id url ≠ id) prev) ;;
     toast (ToastSuccess "URL eliminato con successo!"))
    (fun err =>
       toast (ToastError (str_or (message err) "Errore nell'eliminazione dell'URL")) ;;
       throw err).

(** [updateUrlClicks]: the update of the click count carried by a socket event. *)
Definition updateUrlClicks (urlId newClickCount : Z) : Hook unit :=
  setUrls (fun prev =>
    (fun url => if decide (ShortUrl.id url = urlId)
                then ShortUrl.with_clicksTotal url newClickCount
                else url) <$> prev).

(** The function that [updateUrlClicks] maps over the collection. *)
Definition click_step (urlId n : Z) (url : ShortUrl.t) : ShortUrl.t :=
  if decide (ShortUrl.id url = urlId) then ShortUrl.with_clicksTotal url n else url.

(** Payloads of the socket events, as the handlers read them ([data: any]):
    a field that the handler tests may be missing. *)
Record ClickUpdateData := {
  cu_shortUrlId : option Z;
  cu_newClickCount : option Z }.
Record UrlCreatedData := { uc_shortUrl : option ShortUrl.t }.
Record UrlDeletedData := { ud_shortUrlId : option Z }.

(** Truthiness of an optional number: [undefined] and [0] are falsy. *)
Definition truthy_number (x : option Z) : bool :=
  match x with
  | Some n => bool_decide (n ≠ 0)
  | None => false
  end.

(** Handler given to [subscribeToClickUpdates].  [urls] in the handler is the
    collection of the render that subscribed it, here the collection at the
    time the event arrives. *)
Definition onClickUpdate (data : ClickUpdateData) : Hook unit :=
  match cu_shortUrlId data, cu_newClickCount data with
  | Some shortUrlId, Some newClickCount =>
      if truthy_number (Some shortUrlId) then
        st <- get ;;
        updateUrlClicks shortUrlId newClickCount ;;
        match list_find (fun u => ShortUrl.id u = shortUrlId) (urls st) with
        | Some (_, url) => toast (ToastInfo (ShortUrl.shortCode url) newClickCount)
        | None => ret tt
        end
      else ret tt
  | _, _ => ret tt
  end.

(** Handler given to [subscribeToUrlCreated]. *)
Definition onUrlCreated (data : UrlCreatedData) : Hook unit :=
  match uc_shortUrl data with
  | Some shortUrl =>
      setUrls (fun prev =>
        let exists_ := existsb (fun url => bool_decide (ShortUrl.id url = ShortUrl.id shortUrl)) prev in
        if negb exists_ then shortUrl :: prev else prev)
  | None => ret tt
  end.

(** Handler given to [subscribeToUrlDeleted]. *)
Definition onUrlDeleted (data : UrlDeletedData) : Hook unit :=
  if truthy_number (ud_shortUrlId data) then
    match ud_shortUrlId data with
    | Some shortUrlId =>
        setUrls (fun prev => filter (fun url => ShortUrl.id url ≠ shortUrlId) prev)
    | None => ret tt
    end
  else ret tt.

(** Number of records of the collection that carry a given id. *)
Definition count_id (i : Z) (l : list ShortUrl.t) : nat :=
  length (filter (fun url => ShortUrl.id url = i) l).

End UseUrls.

(** ** The push channel manager: class [SocketManager] *)

Module Socket.

(** What the manager writes to the console. *)
Inductive LogLine :=
| LogNoToken                                  (* warn: No auth token available ... *)
| LogConnected (socketId : option nat)        (* log: Socket connected: id *)
| LogDisconnected (reason : string)           (* log: Socket disconnected: reason *)
| LogConnectionError (msg : string)           (* error: Socket connection error: ... *)
| LogMaxReconnect                             (* error: Max reconnection attempts reached *)
| LogReconnectIn (delay attempt : Z)          (* log: Attempting to reconnect in ...ms (attempt ...) *)
| LogListenerError (event : string) (e : JsError)  (* error: Error in socket event listener for ... *)
| LogNotConnected (event : string).           (* warn: Socket not connected, cannot send event *)

Section Manager.
(** [Data] is what the server sends with an event; [App] is the state that
    the subscribed callbacks act on (for [useUrls], the hook's state). *)
Context {Data App : Type}.

(** Payloads handed to the subscribers. *)
Inductive Payload :=
| ConnectionInfo (connected : bool) (reason : option string)
| ErrorInfo (error : string)
| EmptyObject
| ServerData (d : Data).

(** A subscribed function.  A JavaScript [Set] of functions compares them
    by reference: [ref] is that reference.  A call may change the
    application state and may throw. *)
Record Callback := mkCallback {
  ref : nat;
  call : Payload -> App -> App * option JsError }.

(** The socket.io client object held in [this.socket]. *)
Record SocketHandle := mkHandle { sid : nat; connected : bool }.

(** The fields of [SocketManager]. *)
Record Manager := mkManager {
  socket : option SocketHandle;
  isConnected : bool;
  reconnectAttempts : Z;
  maxReconnectAttempts : Z;
  reconnectDelay : Z;
  listeners : gmap string (list Callback) }.

(** Effects that leave the manager, in the order they happen.  [Dispatched]
    and [Invoked] record the calls of [emit] and of the callbacks. *)
Inductive Effect :=
| Console (line : LogLine)
| IoOpen (sid : nat) (token : string)
| IoDisconnect (sid : nat)
| IoSend (sid : nat) (event : string) (data : Payload)
| SetTimeout (delay : Z)
| Dispatched (event : string) (data : Payload)
| Invoked (ref : nat) (event : string) (data : Payload).

Record World := mkWorld {
  mgr : Manager;
  app : App;
  authToken : option string;       (* authManager.getToken() *)
  next_sid : nat;                  (* identity of the next socket made by io() *)
  trace : list Effect }.

Definition SM := eff World JsError.

Definition new_manager : Manager :=
  mkManager None false 0 5 1000 ∅.

Definition set_mgr (f : Manager -> Manager) : SM unit :=
  modify (fun w => mkWorld (f (mgr w)) (app w) (authToken w) (next_sid w) (trace w)).

Definition effect (e : Effect) : SM unit :=
  modify (fun w => mkWorld (mgr w) (app w) (authToken w) (next_sid w) (trace w ++ [e])).

Definition set_socket (s : option SocketHandle) (m : Manager) : Manager :=
  mkManager s (isConnected m) (reconnectAttempts m) (maxReconnectAttempts m)
            (reconnectDelay m) (listeners m).
Definition set_isConnected (b : bool) (m : Manager) : Manager :=
  mkManager (socket m) b (reconnectAttempts m) (maxReconnectAttempts m)
            (reconnectDelay m) (listeners m).
Definition set_reconnectAttempts (n : Z) (m : Manager) : Manager :=
  mkManager (socket m) (isConnected m) n (maxReconnectAttempts m)
            (reconnectDelay m) (listeners m).
Definition set_listeners (l : gmap string (list Callback)) (m : Manager) : Manager :=
  mkManager (socket m) (isConnected m) (reconnectAttempts m) (maxReconnectAttempts m)
            (reconnectDelay m) l.

(** [this.socket?.connected] as a condition. *)
Definition socket_connected (m : Manager) : bool :=
  match socket m with
  | Some s => connected s
  | None => false
  end.

(** socket.io keeps [socket.connected] up to date before it fires
    ['connect'], ['disconnect'] and ['connect_error']. *)
Definition io_sets_connected (b : bool) (m : Manager) : Manager :=
  match socket m with
  | Some s => set_socket (Some (mkHandle (sid s) b)) m
  | None => m
  end.

Local Open Scope eff_scope.

(** [callback(data)] *)
Definition invoke (event : string) (callback : Callback) (data : Payload) : SM unit :=
  fun w =>
    let '(a, thrown) := call callback data (app w) in
    let w' := mkWorld (mgr w) a (authToken w) (next_sid w)
                      (trace w ++ [Invoked (ref callback) event data]) in
    match thrown with
    | None => (w', Normal tt)
    | Some e => (w', Throw e)
    end.

(** [emit(event, data)] *)
Definition emit (event : string) (data : Payload) : SM unit :=
  effect (Dispatched event data) ;;
  w <- get ;;
  match listeners (mgr w) !! event with
  | Some eventListeners =>
      forEach eventListeners (fun callback =>
        try_catch
          (invoke event callback data)
          (fun error => effect (Console (LogListenerError event error))))
  | None => ret tt
  end.

(** [connect()]; [setupEventListeners] installs the handlers [onConnect],
    [onDisconnect], [onConnectError] and [onServerEvent] below. *)
Definition connect : SM unit :=
  w <- get ;;
  if socket_connected (mgr w) then ret tt
  else
    match authToken w with
    | Some token =>
        if decide (token = "") then effect (Console LogNoToken)
        else
          effect (IoOpen (next_sid w) token) ;;
          modify (fun w => mkWorld (set_socket (Some (mkHandle (next_sid w) false)) (mgr w))
                                   (app w) (authToken w) (S (next_sid w)) (trace w))
    | None => effect (Console LogNoToken)
    end.

(** The function given to [setTimeout] by [handleReconnect]. *)
Definition reconnectTimer : SM unit :=
  w <- get ;;
  if negb (isConnected (mgr w)) then connect else ret tt.

(** [handleReconnect()].  The counter starts at 0 and is only incremented or
    reset to 0, so the exponent of [Math.pow] is never negative. *)
Definition handleReconnect : SM unit :=
  w <- get ;;
  if decide (reconnectAttempts (mgr w) >= maxReconnectAttempts (mgr w)) then
    effect (Console LogMaxReconnect) ;;
    emit "maxReconnectAttemptsReached" EmptyObject
  else
    set_mgr (fun m => set_reconnectAttempts (reconnectAttempts m + 1) m) ;;
    w <- get ;;
    let delay := reconnectDelay (mgr w) * 2 ^ (reconnectAttempts (mgr w) - 1) in
    effect (Console (LogReconnectIn delay (reconnectAttempts (mgr w)))) ;;
    effect (SetTimeout delay).

(** Handler of the socket's ['connect']. *)
Definition onConnect : SM unit :=
  set_mgr (io_sets_connected true) ;;
  w <- get ;;
  effect (Console (LogConnected (sid <$> socket (mgr w)))) ;;
  set_mgr (set_isConnected true) ;;
  set_mgr (set_reconnectAttempts 0) ;;
  emit "connection" (ConnectionInfo true None).

(** Handler of the socket's ['disconnect']. *)
Definition onDisconnect (reason : string) : SM unit :=
  set_mgr (io_sets_connected false) ;;
  effect (Console (LogDisconnected reason)) ;;
  set_mgr (set_isConnected false) ;;
  emit "connection" (ConnectionInfo false (Some reason)) ;;
  if decide (reason = "io server disconnect") then handleReconnect else ret tt.

(** Handler of the socket's ['connect_error']. *)
Definition onConnectError (msg : string) : SM unit :=
  set_mgr (io_sets_connected false) ;;
  effect (Console (LogConnectionError msg)) ;;
  set_mgr (set_isConnected false) ;;
  emit "error" (ErrorInfo msg) ;;
  handleReconnect.

(** Handlers of ['clickUpdate'], ['urlCreated'], ['urlDeleted'], ['userStats']. *)
Definition onServerEvent (event : string) (data : Data) : SM unit :=
  emit event (ServerData data).

(** [disconnect()].  socket.io's [socket.disconnect()] fires ['disconnect']
    with reason ['io client disconnect'] when the socket was connected. *)
Definition disconnect : SM unit :=
  w <- get ;;
  match socket (mgr w) with
  | Some s =>
      effect (IoDisconnect (sid s)) ;;
      (if connected s then onDisconnect "io client disconnect" else ret tt) ;;
      set_mgr (set_socket None) ;;
      set_mgr (set_isConnected false) ;;
      set_mgr (set_listeners ∅)
  | None => ret tt
  end.

(** [on(event, callback)]: a [Set] keeps one entry per function. *)
Definition on (event : string) (callback : Callback) : SM unit :=
  set_mgr (fun m =>
    let eventListeners := default [] (listeners m !! event) in
    if decide (ref callback ∈ ref <$> eventListeners) then
      set_listeners (<[event := eventListeners]> (listeners m)) m
    else set_listeners (<[event := eventListeners ++ [callback]]> (listeners m)) m).

(** The function returned by [on(event, callback)]. *)
Definition unsubscribe (event : string) (callback : Callback) : SM unit :=
  set_mgr (fun m =>
    match listeners m !! event with
    | Some eventListeners =>
        let remaining := filter (fun c => ref c ≠ ref callback) eventListeners in
        if decide (remaining = []) then set_listeners (delete event (listeners m)) m
        else set_listeners (<[event := remaining]> (listeners m)) m
    | None => m
    end).

(** [sendEvent(event, data)] *)
Definition sendEvent (event : string) (data : Payload) : SM unit :=
  w <- get ;;
  match socket (mgr w) with
  | Some s =>
      if connected s then effect (IoSend (sid s) event data)
      else effect (Console (LogNotConnected event))
  | None => effect (Console (LogNotConnected event))
  end.

(** [isSocketConnected()] *)
Definition isSocketConnected (m : Manager) : bool :=
  isConnected m && socket_connected m.

(** Effects of a given kind in a trace. *)
Definition dispatched (event : string) (t : list Effect) : list Payload :=
  omap (fun e => match e with
                 | Dispatched ev d => if decide (ev = event) then Some d else None
                 | _ => None
                 end) t.


Definition timeouts (t : list Effect) : list Z :=
  omap (fun e => match e with SetTimeout d => Some d | _ => None end) t.

Definition invoked_refs (event : string) (t : list Effect) : list nat :=
  omap (fun e => match e with
                 | Invoked r ev _ => if decide (ev = event) then Some r else None
                 | _ => None
                 end) t.

(** The body of the [forEach] in [emit]. *)
Definition guarded_call (event : string) (data : Payload) (callback : Callback) : SM unit :=
  try_catch (invoke event callback data)
            (fun error => effect (Console (LogListenerError event error))).

(** What the part of the trace written by the listeners of an event
    contains: one call per listener, in order, no timer and no dispatch. *)
Definition listener_trace (event : string) (cbs : list Callback) (t : list Effect) : Prop :=
  invoked_refs event t = ref <$> cbs ∧ timeouts t = [] ∧ ∀ ev, dispatched ev t = [].
End Manager.

Arguments Payload : clear implicits.
Arguments Callback : clear implicits.
Arguments Manager : clear implicits.
Arguments Effect : clear implicits.
Arguments World : clear implicits.
Arguments SM : clear implicits.

End Socket.

(** ** The credential store: class [AuthManager] ([src/app/helpers/auth.ts]) *)

(** Values produced by [JSON.parse]. *)
#[local] Unset Elimination Schemes.
Inductive Json :=
| JNull
| JBool (b : bool)
| JNumber (n : Z)
| JString (s : string)
| JArray (items : list Json)
| JObject (fields : gmap string Json).
#[local] Set Elimination Schemes.

Module AuthState.
Record t := mk {
  user : option User.t;
  token : option string;
  isAuthenticated : bool;
  isLoading : bool }.
End AuthState.

Module Auth.

(** [s.split('.')]: the pieces of [s] between the dots. *)
Fixpoint split_dot (s : string) : list string :=
  match s with
  | EmptyString => [EmptyString]
  | String c rest =>
      if decide (c = "."%char) then EmptyString :: split_dot rest
      else match split_dot rest with
           | piece :: pieces => String c piece :: pieces
           | [] => [String c EmptyString]
           end
  end.

(** [xs[1]] passed to a function that takes a string: a missing element is
    [undefined], which is converted to the string "undefined". *)
Definition second_piece (pieces : list string) : string :=
  default "undefined" (pieces !! 1%nat).

(** [v.exp]: reading a property of [null] throws ([None]); a value without
    the property gives [undefined] ([Some None]). *)
Definition get_exp (v : Json) : option (option Json) :=
  match v with
  | JNull => None
  | JObject fields => Some (fields !! "exp")
  | _ => Some None
  end.

Section Manager.
(** Library functions: [atob] and [JSON.parse] return [None] where they
    throw; [ToNumber_other] is the numeric conversion of strings, arrays
    and objects ([None] is NaN). *)
Variable atob : string -> option string.
Variable JSON_parse : string -> option Json.
Variable ToNumber_other : Json -> option Z.

(** The operand conversion of [x * 1000]; [None] is NaN. *)
Definition ToNumber (x : option Json) : option Z :=
  match x with
  | None => None
  | Some JNull => Some 0
  | Some (JBool b) => Some (if b then 1 else 0)
  | Some (JNumber n) => Some n
  | Some v => ToNumber_other v
  end.

(** [a >= b] on numbers: false when [b] is NaN. *)
Definition number_ge (a : Z) (b : option Z) : bool :=
  match b with
  | Some b => bool_decide (a >= b)
  | None => false
  end.

(** [isTokenExpired()], with [now] the value of [Date.now()]. *)
Definition isTokenExpired (now : Z) (st : AuthState.t) : bool :=
  match AuthState.token st with
  | None => true
  | Some token =>
      if decide (token = "") then true
      else
        let decoded :=
          text ← atob (second_piece (split_dot token));
          payload ← JSON_parse text;
          get_exp payload in
        match decoded with
        | Some exp => number_ge now ((fun n => n * 1000) <$> ToNumber exp)
        | None => true
        end
  end.

(** [isAuthenticated()] *)
Definition isAuthenticated (now : Z) (st : AuthState.t) : bool :=
  AuthState.isAuthenticated st && negb (isTokenExpired now st).
End Manager.

End Auth.

(** ** Sample values for the examples *)

Module Samples.
Definition alice : User.t :=
  User.mk 1 "alice" "alice@example.org" "2024-01-01T00:00:00Z" "2024-01-01T00:00:00Z".

Definition url (id clicks : Z) : ShortUrl.t :=
  ShortUrl.mk id "https://example.org/page" "abc123" None clicks alice
              "2024-01-01T00:00:00Z" "2024-01-01T00:00:00Z" None.

Definition hook (l : list ShortUrl.t) : UseUrls.State :=
  UseUrls.mkState l false None [].

Import Socket.
Local Open Scope eff_scope.

(** A fresh manager in a session that has a token; the subscribers act on
    a counter. *)
Definition world0 : World unit nat :=
  mkWorld new_manager 0%nat (Some "header.payload.signature") 0%nat [].

Definition counting (r : nat) : Callback unit nat :=
  mkCallback r (fun _ n => (S n, None)).

Definition failing (r : nat) : Callback unit nat :=
  mkCallback r (fun _ n => (n, Some {| message := "listener failed"; status := None |})).

(** A connection attempt that fails, and the retry that the timer starts. *)
Definition failed_retry : SM unit nat unit :=
  reconnectTimer ;; onConnectError "xhr poll error".


(** Three failed attempts, then an explicit [disconnect()]. *)
Definition fail_then_disconnect : SM unit nat unit :=
  on "connection" (counting 1) ;;
  connect ;; onConnectError "xhr poll error" ;;
  failed_retry ;; failed_retry ;;
  disconnect.

(** A token whose payload is the object with [exp] 1700000000, and
    stand-ins for [atob] and [JSON.parse] that decode that payload. *)
Definition jwt : string := "eyJhbGciOiJIUzI1NiJ9.eyJleHAiOjE3MDAwMDAwMDB9.c2ln".

Definition quote : string := String (ascii_of_nat 34) EmptyString.

Definition payload_text : string :=
  String.append "{" (String.append quote (String.append "exp"
    (String.append quote ":1700000000}"))).

Definition sample_atob (s : string) : option string :=
  if decide (s = "eyJleHAiOjE3MDAwMDAwMDB9") then Some payload_text else None.

Definition sample_JSON_parse (s : string) : option Json :=
  if decide (s = payload_text) then Some (JObject {[ "exp" := JNumber 1700000000 ]})
  else None.

Definition sample_ToNumber_other (v : Json) : option Z := None.

Definition session : AuthState.t :=
  AuthState.mk (Some alice) (Some jwt) true false.
End Samples.

(** ** Addition of JavaScript numbers that hold integers *)

Module Number.

(** The double nearest to the integer [x], ties to the even significand
    (the rounding of every arithmetic operation on numbers).  An integer of
    magnitude at most 2^53 is a double; above, a double is a multiple of
    the power of two that leaves 53 significant bits. *)
Definition round53 (x : Z) : Z :=
  if decide (Z.abs x ≤ 2 ^ 53) then x
  else
    let ulp := 2 ^ (Z.log2 (Z.abs x) - 52) in
    let q := Z.abs x / ulp in
    let r := Z.abs x mod ulp in
    let q' := if decide (2 * r < ulp) then q
              else if decide (ulp < 2 * r) then q + 1
              else if Z.even q then q else q + 1 in
    Z.sgn x * (q' * ulp).

(** A number that is an integer, or an infinity. *)
Inductive t :=
| Num (z : Z)
| Infinity (negative : bool).

(** The number for the exact integer result [x] of an operation: rounded,
    and an infinity from 2^1024 on. *)
Definition of_exact (x : Z) : t :=
  let r := round53 x in
  if decide (Z.abs r < 2 ^ 1024) then Num r else Infinity (bool_decide (r < 0)).

(** [a + b] for a number [a] and an integer number [b]. *)
Definition add (a : t) (b : Z) : t :=
  match a with
  | Num x => of_exact (x + b)
  | Infinity negative => Infinity negative
  end.

(** The integers of magnitude at most 2^53, which rounding leaves as they
    are. *)
Definition safe (x : Z) : Prop := - 2 ^ 53 ≤ x ≤ 2 ^ 53.

End Number.

(** ** Derived queries of [useUrls] ([src/hooks/useUrls.ts]) *)

Module UrlQueries.

(** [getUrlByShortCode]: [urls.find(url => url.shortCode === shortCode)] *)
Definition getUrlByShortCode (urls : list ShortUrl.t) (shortCode : string) : option ShortUrl.t :=
  snd <$> list_find (fun url => ShortUrl.shortCode url = shortCode) urls.

(** [getTotalClicks]: [urls.reduce((total, url) => total + url.clicksTotal, 0)] *)
Definition getTotalClicks (urls : list ShortUrl.t) : Number.t :=
  foldl (fun total url => Number.add total (ShortUrl.clicksTotal url)) (Number.Num 0) urls.

(** The sum of the counters as integers, without rounding. *)
Definition sum_clicks (urls : list ShortUrl.t) : Z :=
  foldr (fun url total => ShortUrl.clicksTotal url + total) 0 urls.

Section Dates.
(** [new Date(s).getTime()]: the time value in milliseconds, [None] for an
    invalid date (NaN, for which every comparison is false). *)
Variable Date_parse : string -> option Z.

(** The test of [getActiveUrls], with [now] the time value of [new Date()]. *)
Definition active_test (now : Z) (url : ShortUrl.t) : bool :=
  match ShortUrl.expirationDate url with
  | None => true
  | Some date =>
      if decide (date = "") then true
      else match Date_parse date with
           | Some t => bool_decide (t > now)
           | None => false
           end
  end.

(** The test of [getExpiredUrls]. *)
Definition expired_test (now : Z) (url : ShortUrl.t) : bool :=
  match ShortUrl.expirationDate url with
  | None => false
  | Some date =>
      if decide (date = "") then false
      else match Date_parse date with
           | Some t => bool_decide (t <= now)
           | None => false
           end
  end.

Definition getActiveUrls (now : Z) (urls : list ShortUrl.t) : list ShortUrl.t :=
  filter (fun url => active_test now url) urls.

Definition getExpiredUrls (now : Z) (urls : list ShortUrl.t) : list ShortUrl.t :=
  filter (fun url => expired_test now url) urls.

(** [isExpired] of the validation helpers, used by the list component. *)
Definition isExpired (expirationDate : option string) (now : Z) : bool :=
  match expirationDate with
  | None => false
  | Some date =>
      if decide (date = "") then false
      else match Date_parse date with
           | Some t => bool_decide (t < now)
           | None => false
           end
  end.

(** A record whose expiration date is present and is not a valid date. *)
Definition invalid_expiration (url : ShortUrl.t) : Prop :=
  ∃ date, ShortUrl.expirationDate url = Some date ∧ date ≠ "" ∧ Date_parse date = None.
End Dates.

End UrlQueries.

(** ** The request gateway: class [ApiClient] *)

Module Response.
(** The parsed body of a response that is not ok, as [handleResponse] reads
    it.  [ErrorEnvelope]: [errorData.error] is there, with its [status] and
    its [message] when it has them.  [NoErrorField]: the body is [null], or
    its [error] is missing or [null], so that reading
    [errorData.error.message] throws a TypeError, whose message is given. *)
Inductive ErrorBody :=
| ErrorEnvelope (status : option Z) (message : option string)
| NoErrorField (typeError : string).

(** A [fetch] response; [json_error] and [json_data] are [response.json()]
    read as the body of an error and as the expected body. *)
Record t (T : Type) := mk {
  ok : bool;
  status : Z;
  json_error : completion JsError ErrorBody;
  json_data : completion JsError T }.
Arguments mk {T} _ _ _ _.
Arguments ok {T} _.
Arguments status {T} _.
Arguments json_error {T} _.
Arguments json_data {T} _.
End Response.

Module Api.

(** [new ApiError(message, status)] *)
Definition ApiError (msg : string) (code : Z) : JsError :=
  {| message := msg; status := Some code |}.

(** [a || b] on numbers: 0 is falsy. *)
Definition num_or (a b : Z) : Z := if decide (a = 0) then b else a.

(** [handleResponse]; a field of the envelope that is missing is
    [undefined], which [||] replaces like the empty string and 0. *)
Definition handleResponse {T} (response : Response.t T) : completion JsError T :=
  if negb (Response.ok response) then
    let errorData :=
      match Response.json_error response with
      | Normal body => body
      | Throw _ =>
          Response.ErrorEnvelope (Some (Response.status response))
                                 (Some "Network error occurred")
      end in
    match errorData with
    | Response.ErrorEnvelope err_status err_message =>
        Throw (ApiError (str_or (default "" err_message) "An error occurred")
                        (num_or (default 0 err_status) (Response.status response)))
    | Response.NoErrorField typeError =>
        Throw {| message := typeError; status := None |}
    end
  else Response.json_data response.

(** [await fetch(...)] followed by the rest of the method: a rejected
    [fetch] rejects the method. *)
Definition after_fetch {T R} (fetched : completion JsError (Response.t T))
    (rest : Response.t T -> completion JsError R) : completion JsError R :=
  match fetched with
  | Normal response => rest response
  | Throw e => Throw e
  end.

(** [createShortUrl], [getUrlAnalytics], [checkCustomCodeAvailability], ... *)
Definition createShortUrl {T} (fetched : completion JsError (Response.t T)) : completion JsError T :=
  after_fetch fetched handleResponse.

(** [deleteShortUrl] *)
Definition deleteShortUrl (fetched : completion JsError (Response.t unit)) : completion JsError unit :=
  after_fetch fetched (fun response =>
    if negb (Response.ok response)
    then Throw (ApiError "Failed to delete URL" (Response.status response))
    else Normal tt).

(** [recordClick]: the response is not looked at. *)
Definition recordClick (fetched : completion JsError (Response.t unit)) : completion JsError unit :=
  after_fetch fetched (fun _ => Normal tt).

(** [getCurrentUserId]; [user_id] is [JSON.parse(userStr).id]. *)
Definition getCurrentUserId (user_id : string -> completion JsError Z)
    (localStorage : gmap string string) : completion JsError Z :=
  match localStorage !! "auth_user" with
  | Some userStr =>
      if decide (userStr = "")
      then Throw {| message := "User not authenticated"; status := None |}
      else user_id userStr
  | None => Throw {| message := "User not authenticated"; status := None |}
  end.

(** [getUserUrls]; the request is made for the stored user's id. *)
Definition getUserUrls {T} (user_id : string -> completion JsError Z)
    (localStorage : gmap string string)
    (fetched : Z -> completion JsError (Response.t T)) : completion JsError T :=
  match getCurrentUserId user_id localStorage with
  | Normal id => after_fetch (fetched id) handleResponse
  | Throw e => Throw e
  end.

(** [getAuthHeaders] *)
Definition getAuthHeaders (localStorage : gmap string string) : list (string * string) :=
  ("Content-Type", "application/json") ::
  match localStorage !! "auth_token" with
  | Some token =>
      if decide (token = "") then [] else [("Authorization", String.append "Bearer " token)]
  | None => []
  end.

End Api.

(** ** The hook for one record: [useUrl] ([src/hooks/useUrls.ts]) *)

Module UseUrl.

(** The hook's React state, and the errors written to the console. *)
Record State := mkState {
  url : option ShortUrl.t;
  isLoading : bool;
  error : option string;
  console : list JsError }.

Definition Hook := eff State JsError.

Definition setUrl (f : option ShortUrl.t -> option ShortUrl.t) : Hook unit :=
  modify (fun st => mkState (f (url st)) (isLoading st) (error st) (console st)).

Definition setIsLoading (b : bool) : Hook unit :=
  modify (fun st => mkState (url st) b (error st) (console st)).

Definition setError (e : option string) : Hook unit :=
  modify (fun st => mkState (url st) (isLoading st) e (console st)).

Definition console_error (e : JsError) : Hook unit :=
  modify (fun st => mkState (url st) (isLoading st) (error st) (console st ++ [e])).

Definition await {A} (settled : completion JsError A) : Hook A :=
  fun st => (st, settled).

(** [response.data]: an array of records, or one record (or nothing). *)
Inductive ResponseData :=
| DataArray (items : list ShortUrl.t)
| DataSingle (item : option ShortUrl.t).

Local Open Scope eff_scope.

(** [fetchUrl], for the hook's [shortCode]. *)
Definition fetchUrl (shortCode : string)
    (getUrlByShortCode : completion JsError ResponseData) : Hook unit :=
  if decide (shortCode = "") then ret tt
  else
    setIsLoading true ;;
    setError None ;;
    try_catch
      (data <- await getUrlByShortCode ;;
       let urlData := match data with
                      | DataArray items => head items
                      | DataSingle item => item
                      end in
       setUrl (fun _ => urlData))
      (fun err =>
         setError (Some (str_or (message err) "URL non trovato")) ;;
         setUrl (fun _ => None)) ;;
    setIsLoading false.

(** [recordClick]; [url] in the guard is the record of the current render.
    [prev.clicksTotal + 1] is an addition of numbers: the double nearest to
    the sum, which is finite for every counter. *)
Definition recordClick (recordClickCall : completion JsError unit) : Hook unit :=
  st <- get ;;
  match url st with
  | None => ret tt
  | Some _ =>
      try_catch
        (await recordClickCall ;;
         setUrl (fun prev =>
           match prev with
           | Some p =>
               Some (ShortUrl.with_clicksTotal p (Number.round53 (ShortUrl.clicksTotal p + 1)))
           | None => None
           end))
        (fun err => console_error err)
  end.

End UseUrl.

(** ** The credential store: state, storage and subscribers of [AuthManager]
    ([src/app/helpers/auth.ts]) *)

Module AuthStore.

(** [AuthResponse] *)
Record AuthResponse := mkAuthResponse { jwt : string; user : User.t }.

(** [Partial<AuthState>]: the fields that an update sets. *)
Record Updates := mkUpdates {
  u_user : option (option User.t);
  u_token : option (option string);
  u_isAuthenticated : option bool;
  u_isLoading : option bool }.

(** [{ ...state, ...updates }] *)
Definition merge (state : AuthState.t) (updates : Updates) : AuthState.t :=
  AuthState.mk
    (default (AuthState.user state) (u_user updates))
    (default (AuthState.token state) (u_token updates))
    (default (AuthState.isAuthenticated state) (u_isAuthenticated updates))
    (default (AuthState.isLoading state) (u_isLoading updates)).

(** The initial value of the field [authState]. *)
Definition initial_state : AuthState.t := AuthState.mk None None false false.

Section Store.
(** [App] is the state that the subscribed listeners act on.
    [JSON_stringify] and [JSON_parse] are the library functions on the user
    object: [JSON_parse] gives [None] where it throws and [Some None] for
    [null]. *)
Context {App : Type}.
Variable JSON_stringify : User.t -> string.
Variable JSON_parse : string -> option (option User.t).

(** A subscribed function, compared by reference; a call may change the
    application state and may throw. *)
Record Listener := mkListener {
  lref : nat;
  notify : AuthState.t -> App -> App * option JsError }.

(** The fields of [AuthManager], the browser's [localStorage], and whether
    [window] is defined. *)
Record Store := mkStore {
  authState : AuthState.t;
  listeners : list Listener;
  localStorage : gmap string string;
  hasWindow : bool;
  app : App }.

Definition ST := eff Store JsError.

Definition set_authState (f : AuthState.t -> AuthState.t) : ST unit :=
  modify (fun s => mkStore (f (authState s)) (listeners s) (localStorage s) (hasWindow s) (app s)).

Definition set_listeners (f : list Listener -> list Listener) : ST unit :=
  modify (fun s => mkStore (authState s) (f (listeners s)) (localStorage s) (hasWindow s) (app s)).

Definition set_localStorage (f : gmap string string -> gmap string string) : ST unit :=
  modify (fun s => mkStore (authState s) (listeners s) (f (localStorage s)) (hasWindow s) (app s)).

(** [localStorage.setItem(key, value)]; without [window] the name
    [localStorage] is not defined and the access throws. *)
Definition setItem (key value : string) : ST unit :=
  fun s =>
    if hasWindow s then set_localStorage (insert key value) s
    else (s, Throw {| message := "localStorage is not defined"; status := None |}).

Definition await {A} (settled : completion JsError A) : ST A :=
  fun s => (s, settled).

Local Open Scope eff_scope.

(** [listener(this.authState)] *)
Definition call_listener (listener : Listener) : ST unit :=
  fun s =>
    let '(a, thrown) := notify listener (authState s) (app s) in
    let s' := mkStore (authState s) (listeners s) (localStorage s) (hasWindow s) a in
    match thrown with
    | None => (s', Normal tt)
    | Some e => (s', Throw e)
    end.

(** [notifyListeners]: no [try] around the calls. *)
Definition notifyListeners : ST unit :=
  s <- get ;;
  forEach (listeners s) call_listener.

(** [updateState] *)
Definition updateState (updates : Updates) : ST unit :=
  set_authState (fun state => merge state updates) ;;
  notifyListeners.

(** [getState], [getCurrentUser], [getToken] *)
Definition getState (s : Store) : AuthState.t := authState s.
Definition getCurrentUser (s : Store) : option User.t := AuthState.user (authState s).
Definition getToken (s : Store) : option string := AuthState.token (authState s).

(** [subscribe(listener)] and the function it returns. *)
Definition subscribe (listener : Listener) : ST unit :=
  set_listeners (fun ls => ls ++ [listener]).

Definition unsubscribe (listener : Listener) : ST unit :=
  set_listeners (fun ls => filter (fun l => lref l ≠ lref listener) ls).

(** [clearAuth] *)
Definition clearAuth : ST unit :=
  s <- get ;;
  if hasWindow s then
    set_localStorage (delete "auth_token") ;;
    set_localStorage (delete "auth_user")
  else ret tt.

(** [logout] *)
Definition logout : ST unit :=
  clearAuth ;;
  updateState (mkUpdates (Some None) (Some None) (Some false) (Some false)).

(** [login]; [apiLogin] is the settled gateway call. *)
Definition login (apiLogin : completion JsError AuthResponse) : ST unit :=
  updateState (mkUpdates None None None (Some true)) ;;
  try_catch
    (response <- await apiLogin ;;
     setItem "auth_token" (jwt response) ;;
     setItem "auth_user" (JSON_stringify (user response)) ;;
     updateState (mkUpdates (Some (Some (user response))) (Some (Some (jwt response)))
                            (Some true) (Some false)))
    (fun error =>
       updateState (mkUpdates None None None (Some false)) ;;
       throw error).

(** [register]; [apiRegister] is the settled gateway call. *)
Definition register (apiRegister : completion JsError AuthResponse) : ST unit :=
  updateState (mkUpdates None None None (Some true)) ;;
  try_catch
    (response <- await apiRegister ;;
     setItem "auth_token" (jwt response) ;;
     setItem "auth_user" (JSON_stringify (user response)) ;;
     updateState (mkUpdates (Some (Some (user response))) (Some (Some (jwt response)))
                            (Some true) (Some false)))
    (fun error =>
       updateState (mkUpdates None None None (Some false)) ;;
       throw error).

(** [refreshUser]; [getMe] is the settled gateway call. *)
Definition refreshUser (getMe : completion JsError User.t) : ST unit :=
  s <- get ;;
  if negb (AuthState.isAuthenticated (authState s)) then ret tt
  else
    try_catch
      (me <- await getMe ;;
       setItem "auth_user" (JSON_stringify me) ;;
       updateState (mkUpdates (Some (Some me)) None None None))
      (fun error => logout ;; throw error).

(** [initializeAuth], run by the constructor. *)
Definition initializeAuth : ST unit :=
  s <- get ;;
  if hasWindow s then
    match localStorage s !! "auth_token", localStorage s !! "auth_user" with
    | Some token, Some userStr =>
        if decide (token = "" ∨ userStr = "") then ret tt
        else
          match JSON_parse userStr with
          | Some parsed =>
              set_authState (fun _ => AuthState.mk parsed (Some token) true false)
          | None => clearAuth
          end
    | _, _ => ret tt
    end
  else ret tt.

(** [new AuthManager()] in a browser with the given storage. *)
Definition new_manager (storage : gmap string string) (window : bool) (a : App) : Store :=
  exec initializeAuth (mkStore initial_state [] storage window a).

(** No listener of the store throws. *)
Definition quiet (s : Store) : Prop :=
  Forall (fun l => ∀ state a, (notify l state a).2 = None) (listeners s).
End Store.

Arguments Listener : clear implicits.
Arguments Store : clear implicits.
Arguments ST : clear implicits.

End AuthStore.

(** ** Rooms, start-up and shut-down of the push channel, and the events
    that drive the manager *)

Module SocketOps.
Import Socket.

Section Ops.
Context {Data App : Type}.

(** The object [{ room }] as a payload, and the conversion of a number
    to a string in a template literal. *)
Variable room_object : string -> Payload Data.
Variable Number_toString : Z -> string.

Local Open Scope eff_scope.

(** [joinRoom(room)] and [leaveRoom(room)] *)
Definition joinRoom (room : string) : SM Data App unit :=
  sendEvent "joinRoom" (room_object room).

Definition leaveRoom (room : string) : SM Data App unit :=
  sendEvent "leaveRoom" (room_object room).

(** The room name [user_${user.id}]. *)
Definition userRoom (user : User.t) : string :=
  String.append "user_" (Number_toString (User.id user)).

(** [joinUserRoom()] and [leaveUserRoom()]; [currentUser] is
    [authManager.getCurrentUser()]. *)
Definition joinUserRoom (currentUser : option User.t) : SM Data App unit :=
  match currentUser with
  | Some user => joinRoom (userRoom user)
  | None => ret tt
  end.

Definition leaveUserRoom (currentUser : option User.t) : SM Data App unit :=
  match currentUser with
  | Some user => leaveRoom (userRoom user)
  | None => ret tt
  end.

(** [initializeSocketConnection()]; [isAuthenticated] is
    [authManager.isAuthenticated()]. *)
Definition initializeSocketConnection (isAuthenticated : bool)
    (currentUser : option User.t) : SM Data App unit :=
  if isAuthenticated then connect ;; joinUserRoom currentUser else ret tt.

(** [cleanupSocketConnection()] *)
Definition cleanupSocketConnection (currentUser : option User.t) : SM Data App unit :=
  leaveUserRoom currentUser ;; disconnect.

(** What can happen to the manager: a call of one of its public methods, an
    event of the socket, or the reconnect timer firing. *)
Inductive Action :=
| CallConnect
| CallDisconnect
| CallOn (event : string) (callback : Callback Data App)
| CallUnsubscribe (event : string) (callback : Callback Data App)
| CallSendEvent (event : string) (data : Payload Data)
| SocketConnect
| SocketDisconnect (reason : string)
| SocketConnectError (msg : string)
| SocketServerEvent (event : string) (data : Data)
| TimerFired.

Definition step (action : Action) : SM Data App unit :=
  match action with
  | CallConnect => connect
  | CallDisconnect => disconnect
  | CallOn event callback => on event callback
  | CallUnsubscribe event callback => unsubscribe event callback
  | CallSendEvent event data => sendEvent event data
  | SocketConnect => onConnect
  | SocketDisconnect reason => onDisconnect reason
  | SocketConnectError msg => onConnectError msg
  | SocketServerEvent event data => onServerEvent event data
  | TimerFired => reconnectTimer
  end.

Definition run (actions : list Action) : SM Data App unit :=
  forEach actions step.

(** The sockets opened and the events sent to the server, in a trace. *)
Definition opened (t : list (Effect Data)) : list (nat * string) :=
  omap (fun e => match e with IoOpen sid token => Some (sid, token) | _ => None end) t.

Definition sent (t : list (Effect Data)) : list (string * Payload Data) :=
  omap (fun e => match e with IoSend _ event data => Some (event, data) | _ => None end) t.

(** The counter is within its range. *)
Definition attempts_in_range (m : Manager Data App) : Prop :=
  0 ≤ reconnectAttempts m ≤ maxReconnectAttempts m.

(** A delay of the backoff: between the base delay and the base delay times
    2^(max - 1). *)
Definition backoff_delay (m : Manager Data App) (d : Z) : Prop :=
  reconnectDelay m ≤ d ≤ reconnectDelay m * 2 ^ (maxReconnectAttempts m - 1).

(** The sockets disconnected by the manager, in a trace. *)
Definition closed (t : list (Effect Data)) : list nat :=
  omap (fun e => match e with IoDisconnect sid => Some sid | _ => None end) t.

(** An entry of the trace that stays inside the manager: a console line, a
    dispatch or a call of a listener. *)
Definition internal (e : Effect Data) : bool :=
  match e with
  | Console _ | Dispatched _ _ | Invoked _ _ _ => true
  | _ => false
  end.

(** The manager can be run from [w]: the counter is within its range and
    the base delay is not negative. *)
Definition ready (w : World Data App) : Prop :=
  attempts_in_range (mgr w) ∧ 0 ≤ reconnectDelay (mgr w).

(** The outcome [out] of running the manager from [w] is safe: nothing was
    thrown, the counter is within its range, the configuration is as before,
    and every timer set on the way has a delay of the backoff. *)
Definition stays_safe (w : World Data App)
    (out : World Data App * completion JsError unit) : Prop :=
  out.2 = Normal tt ∧
  attempts_in_range (mgr out.1) ∧
  maxReconnectAttempts (mgr out.1) = maxReconnectAttempts (mgr w) ∧
  reconnectDelay (mgr out.1) = reconnectDelay (mgr w) ∧
  ∃ t, trace out.1 = trace w ++ t ∧ Forall (backoff_delay (mgr w)) (timeouts t).
End Ops.

Arguments Action : clear implicits.

End SocketOps.

(** ** The validation helpers *)

Module Validation.

(** A character of the class [[a-zA-Z0-9_-]]. *)
Definition is_code_char (c : ascii) : bool :=
  let n := N_of_ascii c in
  ((97 <=? n) && (n <=? 122) || (65 <=? n) && (n <=? 90) ||
   (48 <=? n) && (n <=? 57) || (n =? 95) || (n =? 45))%N.

Fixpoint all_chars (p : ascii -> bool) (s : string) : bool :=
  match s with
  | EmptyString => true
  | String c rest => p c && all_chars p rest
  end.

(** [/^[a-zA-Z0-9_-]+$/.test(code)] *)
Definition matches_code_chars (code : string) : bool :=
  negb (bool_decide (code = "")) && all_chars is_code_char code.

(** [toLowerCase] on the letters A to Z. *)
Definition lower_char (c : ascii) : ascii :=
  let n := N_of_ascii c in
  if ((65 <=? n) && (n <=? 90))%N then ascii_of_N (n + 32) else c.

Fixpoint toLowerCase (s : string) : string :=
  match s with
  | EmptyString => EmptyString
  | String c rest => String (lower_char c) (toLowerCase rest)
  end.

Definition reservedWords : list string :=
  ["api"; "admin"; "dashboard"; "login"; "register"; "logout";
   "home"; "about"; "contact"; "help"; "support"; "terms";
   "privacy"; "www"; "mail"; "ftp"; "blog"; "shop"; "store"].

(** [isValidCustomCode] *)
Definition isValidCustomCode (code : string) : bool :=
  if decide (code = "") then true
  else if ((String.length code <? 3) || (20 <? String.length code))%nat then false
  else if negb (matches_code_chars code) then false
  else negb (bool_decide (toLowerCase code ∈ reservedWords)).

(** The messages of the two refinements of the schema's [customCode]. *)
Inductive CodeError := OnlyLettersDigitsDashUnderscore | Between3And20.

(** [validateCustomCode]: both refinements of the schema are checked and
    the message of the first that fails is reported. *)
Definition validateCustomCode (code : string) : bool * option CodeError :=
  if decide (code = "") then (true, None)
  else
    let chars_ok := matches_code_chars code in
    let length_ok := ((3 <=? String.length code) && (String.length code <=? 20))%nat in
    if chars_ok && length_ok then (true, None)
    else (false, Some (if chars_ok then Between3And20 else OnlyLettersDigitsDashUnderscore)).

Section Dates.
Variable Date_parse : string -> option Z.

(** [validateExpirationDate], with [now] the time value of [new Date()];
    the result is the field [isValid]. *)
Definition validateExpirationDate (date : string) (now : Z) : bool :=
  if decide (date = "") then true
  else match Date_parse date with
       | Some t => bool_decide (t > now)
       | None => false
       end.
End Dates.

End Validation.

(** ** Sample values for the further examples *)

Module MoreSamples.
Import AuthStore.

(** Stand-ins for [JSON.stringify] and [JSON.parse] on the user object. *)
Definition stringify (u : User.t) : string := String.append "user:" (User.username u).

Definition parse (text : string) : option (option User.t) :=
  if decide (text = "user:alice") then Some (Some Samples.alice)
  else if decide (text = "null") then Some None
  else None.

Definition counter_listener (r : nat) : Listener nat :=
  mkListener r (fun _ n => (S n, None)).

(** A store in a browser, logged out, with one subscriber. *)
Definition store0 : Store nat :=
  mkStore initial_state [counter_listener 1] ∅ true 0%nat.

Definition response0 : AuthResponse := mkAuthResponse Samples.jwt Samples.alice.

Definition rejected : JsError := {| message := "Invalid identifier or password"; status := Some 400 |}.
End MoreSamples.

(** * Properties of the record synchroniser *)

Section UseUrlsFacts.
Import UseUrls.
Local Open Scope eff_scope.

Implicit Types (st : State) (prev : list ShortUrl.t) (url : ShortUrl.t).

Lemma urls_updateUrlClicks st urlId n :
  urls (exec (updateUrlClicks urlId n) st) = click_step urlId n <$> urls st.
Proof. reflexivity. Qed.

Lemma result_updateUrlClicks st urlId n :
  result (updateUrlClicks urlId n) st = Normal tt.
Proof. reflexivity. Qed.

Lemma click_step_id urlId n url :
  ShortUrl.id (click_step urlId n url) = ShortUrl.id url.
Proof. unfold click_step. by case_decide. Qed.

Lemma click_step_same urlId n url :
  ShortUrl.same_but_clicks url (click_step urlId n url).
Proof. unfold click_step, ShortUrl.same_but_clicks. case_decide; simpl; tauto. Qed.

Lemma click_step_other urlId n url :
  ShortUrl.id url ≠ urlId → click_step urlId n url = url.
Proof. unfold click_step. by case_decide. Qed.

Lemma click_step_clicks urlId n url :
  ShortUrl.id url = urlId → ShortUrl.clicksTotal (click_step urlId n url) = n.
Proof. unfold click_step. by case_decide. Qed.

Lemma click_step_twice urlId n url :
  click_step urlId n (click_step urlId n url) = click_step urlId n url.
Proof.
  unfold click_step at 2 3. case_decide as Hid.
  - unfold click_step. simpl. by rewrite decide_True.
  - by apply click_step_other.
Qed.

Lemma count_id_cons i url prev :
  count_id i (url :: prev) =
  ((if decide (ShortUrl.id url = i) then 1 else 0) + count_id i prev)%nat.
Proof. unfold count_id. rewrite filter_cons. by case_decide. Qed.

Lemma count_id_zero i prev :
  count_id i prev = 0%nat ↔ Forall (fun url => ShortUrl.id url ≠ i) prev.
Proof.
  induction prev as [|url prev IH]; [by split|].
  rewrite count_id_cons, Forall_cons. case_decide; [|simpl; tauto].
  split; [discriminate|tauto].
Qed.

(** [prev.some(url => url.id === i)] says whether some record carries [i]. *)
Lemma some_id_spec i prev :
  existsb (fun url => bool_decide (ShortUrl.id url = i)) prev = true ↔
  count_id i prev ≠ 0%nat.
Proof.
  induction prev as [|url prev IH]; simpl; [by split|].
  rewrite count_id_cons, orb_true_iff, IH, bool_decide_eq_true.
  case_decide; [split; [lia|tauto]|]. simpl. tauto.
Qed.

Lemma count_id_filter_ne i prev :
  count_id i (filter (fun url => ShortUrl.id url ≠ i) prev) = 0%nat.
Proof.
  apply count_id_zero, Forall_forall. intros url Hin.
  by apply list_elem_of_filter in Hin as [? _].
Qed.

Lemma count_id_click_step i urlId n prev :
  count_id i (click_step urlId n <$> prev) = count_id i prev.
Proof.
  induction prev as [|url prev IH]; [done|].
  rewrite fmap_cons, !count_id_cons, click_step_id. by rewrite IH.
Qed.

(** The collection after a handler, for each shape of its payload. *)
Lemma urls_onClickUpdate st i n :
  urls (exec (onClickUpdate {| cu_shortUrlId := Some i; cu_newClickCount := Some n |}) st) =
  if decide (i = 0) then urls st else click_step i n <$> urls st.
Proof.
  unfold onClickUpdate, truthy_number. simpl.
  case_decide as Hi.
  - subst i. reflexivity.
  - rewrite bool_decide_true by done.
    unfold exec, bind, get. simpl.
    by destruct (list_find _ _) as [[? ?]|].
Qed.

Lemma urls_onClickUpdate_missing st data :
  cu_shortUrlId data = None ∨ cu_newClickCount data = None →
  urls (exec (onClickUpdate data) st) = urls st.
Proof.
  unfold onClickUpdate. destruct data as [[i|] [n|]]; simpl; intros [?|?]; done.
Qed.

Lemma urls_onUrlDeleted st i :
  urls (exec (onUrlDeleted {| ud_shortUrlId := Some i |}) st) =
  if decide (i = 0) then urls st
  else filter (fun url => ShortUrl.id url ≠ i) (urls st).
Proof.
  unfold onUrlDeleted, truthy_number. simpl.
  case_decide as Hi.
  - subst i. reflexivity.
  - by rewrite bool_decide_true.
Qed.

Lemma urls_onUrlCreated st shortUrl :
  urls (exec (onUrlCreated {| uc_shortUrl := Some shortUrl |}) st) =
  if decide (count_id (ShortUrl.id shortUrl) (urls st) = 0%nat)
  then shortUrl :: urls st else urls st.
Proof.
  unfold onUrlCreated. simpl.
  destruct (existsb _ (urls st)) eqn:Hex.
  - apply some_id_spec in Hex. by rewrite decide_False.
  - rewrite decide_True; [done|].
    destruct (decide (count_id (ShortUrl.id shortUrl) (urls st) = 0%nat)) as [|Hne]; [done|].
    apply some_id_spec in Hne. congruence.
Qed.

Lemma urls_createUrl_resolved st newUrl :
  urls (exec (createUrl (Normal newUrl)) st) = newUrl :: urls st ∧
  result (createUrl (Normal newUrl)) st = Normal newUrl.
Proof. by split. Qed.
End UseUrlsFacts.

Section UseUrlsClaims.
Import UseUrls Samples.
Local Open Scope eff_scope.

Implicit Types (st : State) (prev : list ShortUrl.t) (url : ShortUrl.t).

(** Sequencing after a step that completes normally. *)
Lemma exec_seq {S E A B} (m : eff S E A) (k : A -> eff S E B) (s : S) (a : A) :
  result m s = Normal a → exec (bind m k) s = exec (k a) (exec m s).
Proof.
  unfold result, exec, bind. destruct (m s) as [s' [a'|e]]; simpl; [|done].
  by intros [= ->].
Qed.

Lemma result_onClickUpdate st data : result (onClickUpdate data) st = Normal tt.
Proof.
  unfold onClickUpdate. destruct data as [[i|] [n|]]; simpl; try done.
  destruct (bool_decide _); [|done].
  unfold result, bind, get. simpl. by destruct (list_find _ _) as [[? ?]|].
Qed.

Lemma result_onUrlDeleted st data : result (onUrlDeleted data) st = Normal tt.
Proof.
  unfold onUrlDeleted. destruct (truthy_number _); [|done].
  by destruct (ud_shortUrlId data).
Qed.

Lemma result_onUrlCreated st data : result (onUrlCreated data) st = Normal tt.
Proof. unfold onUrlCreated. by destruct (uc_shortUrl data). Qed.

(** [updateUrlClicks urlId newClickCount] keeps the collection's length
    and order; a record whose id is [urlId] gets the click counter
    [newClickCount] (assigned, not added) and keeps every other field; a
    record with another id is unchanged; when no record carries [urlId]
    the collection is unchanged.  The call completes normally. *)
Lemma updateUrlClicks_assigns st (urlId newClickCount : Z) :
  let after := urls (exec (updateUrlClicks urlId newClickCount) st) in
  length after = length (urls st) ∧
  (∀ (i : nat) url, urls st !! i = Some url →
     ∃ url', after !! i = Some url' ∧
       if decide (ShortUrl.id url = urlId)
       then ShortUrl.clicksTotal url' = newClickCount ∧ ShortUrl.same_but_clicks url url'
       else url' = url) ∧
  (Forall (fun url => ShortUrl.id url ≠ urlId) (urls st) → after = urls st) ∧
  result (updateUrlClicks urlId newClickCount) st = Normal tt.
Proof.
  cbn zeta. rewrite urls_updateUrlClicks. repeat split.
  - by rewrite length_fmap.
  - intros i url Hi. exists (click_step urlId newClickCount url).
    rewrite list_lookup_fmap, Hi. split; [done|].
    case_decide.
    + split; [by apply click_step_clicks | apply click_step_same].
    + by apply click_step_other.
  - intros Hall. induction Hall as [|url prev Hne _ IH]; [done|].
    by rewrite fmap_cons, IH, click_step_other.
Qed.

(** C1, as stated, fails for the id 0: the handler subscribed to the click
    updates tests [data.shortUrlId] for truthiness, so an event that carries
    the id 0 never reaches [updateUrlClicks]; a record with the id 0 exists
    here and keeps its counter 3 although the event carries 7. *)
Lemma click_update_for_id_zero_dropped :
  ∃ record,
    urls (hook [url 0 3]) !! 0%nat = Some record ∧
    ShortUrl.id record = 0 ∧
    ShortUrl.clicksTotal record = 3 ∧
    ShortUrl.clicksTotal record ≠ 7 ∧
    urls (exec (onClickUpdate {| cu_shortUrlId := Some 0; cu_newClickCount := Some 7 |})
               (hook [url 0 3])) = [record].
Proof. exists (url 0 3). by repeat split. Qed.

(** C1, amended.  For an event that carries an id other than 0 and a count,
    the subscribed handler [onClickUpdate] does what [updateUrlClicks] does:
    it keeps the collection's length and order; a record whose id is the
    event's gets the carried count as its click counter (assigned, not
    added) and keeps every other field; a record with another id is
    unchanged; when no record carries the id the collection is unchanged.
    The handler completes normally.  An event that carries the id 0 leaves
    the collection as it is. *)
Theorem onClickUpdate_sets_counter st (shortUrlId newClickCount : Z) :
  shortUrlId ≠ 0 →
  let data := {| cu_shortUrlId := Some shortUrlId; cu_newClickCount := Some newClickCount |} in
  let after := urls (exec (onClickUpdate data) st) in
  length after = length (urls st) ∧
  (∀ (i : nat) url, urls st !! i = Some url →
     ∃ url', after !! i = Some url' ∧
       if decide (ShortUrl.id url = shortUrlId)
       then ShortUrl.clicksTotal url' = newClickCount ∧ ShortUrl.same_but_clicks url url'
       else url' = url) ∧
  (Forall (fun url => ShortUrl.id url ≠ shortUrlId) (urls st) → after = urls st) ∧
  result (onClickUpdate data) st = Normal tt ∧
  after = urls (exec (updateUrlClicks shortUrlId newClickCount) st) ∧
  urls (exec (onClickUpdate {| cu_shortUrlId := Some 0; cu_newClickCount := Some newClickCount |}) st) =
    urls st.
Proof.
  intros Hid. cbn zeta.
  rewrite !urls_onClickUpdate, decide_False, decide_True by done.
  rewrite <- urls_updateUrlClicks.
  destruct (updateUrlClicks_assigns st shortUrlId newClickCount) as (Hlen & Hpos & Hnone & _).
  repeat split; try done. apply result_onClickUpdate.
Qed.

Lemma onClickUpdate_sets_counter_witness :
  1 ≠ 0 ∧
  urls (exec (onClickUpdate {| cu_shortUrlId := Some 1; cu_newClickCount := Some 7 |})
             (hook [url 1 3; url 2 0])) =
  urls (exec (updateUrlClicks 1 7) (hook [url 1 3; url 2 0])).
Proof.
  split; [done|].
  destruct (onClickUpdate_sets_counter (hook [url 1 3; url 2 0]) 1 7) as (_ & _ & _ & _ & H & _);
    [done | exact H].
Defined.

(** The scenarios of the specification for a click update, through
    [updateUrlClicks] and through the subscribed handler. *)
Example click_update_scenarios :
  urls (exec (updateUrlClicks 1 7) (hook [url 1 3])) = [url 1 7] ∧
  urls (exec (updateUrlClicks 9 2) (hook [])) = [] ∧
  urls (exec (onClickUpdate {| cu_shortUrlId := Some 1; cu_newClickCount := Some 7 |})
             (hook [url 1 3])) = [url 1 7] ∧
  urls (exec (onClickUpdate {| cu_shortUrlId := Some 9; cu_newClickCount := Some 2 |})
             (hook [])) = [].
Proof. by repeat split. Qed.

(** C3.  Applying the same click update twice in succession gives the
    collection that applying it once gives, for [updateUrlClicks] and for
    the subscribed handler [onClickUpdate]. *)
Theorem click_update_idempotent st (urlId n : Z) (data : ClickUpdateData) :
  urls (exec (updateUrlClicks urlId n ;; updateUrlClicks urlId n) st) =
    urls (exec (updateUrlClicks urlId n) st) ∧
  urls (exec (onClickUpdate data ;; onClickUpdate data) st) =
    urls (exec (onClickUpdate data) st).
Proof.
  split.
  - rewrite (exec_seq _ _ _ tt) by apply result_updateUrlClicks.
    rewrite !urls_updateUrlClicks, <- list_fmap_compose.
    apply list_fmap_ext. intros _ url _. apply click_step_twice.
  - rewrite (exec_seq _ _ _ tt) by apply result_onClickUpdate.
    destruct data as [[i|] [n'|]];
      try (rewrite !urls_onClickUpdate_missing; simpl; by auto).
    rewrite !urls_onClickUpdate. case_decide; [done|].
    rewrite <- list_fmap_compose.
    apply list_fmap_ext. intros _ url _. apply click_step_twice.
Qed.

(** C9, as stated, fails: a click update that carries a count below the
    record's counter lowers the counter (from 7 to 3 here), through
    [updateUrlClicks] and through the subscribed handler; and a load whose
    response holds the record with a lower counter lowers it as well. *)
Lemma click_counter_can_decrease :
  ∃ before after,
    urls (hook [url 1 7]) !! 0%nat = Some before ∧
    urls (exec (updateUrlClicks 1 3) (hook [url 1 7])) !! 0%nat = Some after ∧
    urls (exec (onClickUpdate {| cu_shortUrlId := Some 1; cu_newClickCount := Some 3 |})
               (hook [url 1 7])) !! 0%nat = Some after ∧
    urls (exec (fetchUrls (Normal (Some [url 1 3]))) (hook [url 1 7])) !! 0%nat = Some after ∧
    ShortUrl.id after = ShortUrl.id before ∧
    ShortUrl.clicksTotal after < ShortUrl.clicksTotal before.
Proof. exists (url 1 7), (url 1 3). by repeat split. Qed.

(** C9, amended.  The handler of a click update that carries an id other
    than 0 and a count assigns the count to the records with that id:
    position by position, the counter of a record does not decrease exactly
    when the event is dropped (no id, the id 0, or no count), or the record
    has another id, or the carried count is at least its counter; the
    counter after the event is non-negative when the counter before and the
    carried count are.  The same holds for a direct call of
    [updateUrlClicks], which drops nothing.  Creating and deleting, locally
    or by a pushed event, change no counter: they only add a record in front
    of the collection or remove records from it, and change nothing when
    the gateway rejects them.  A load that succeeds replaces the collection
    by the records of the response, whatever their counters are; a load
    that fails keeps the collection. *)
Theorem click_counter_under_operations st (data : ClickUpdateData) (urlId n id : Z)
    (newUrl : ShortUrl.t) (created : UrlCreatedData) (deleted : UrlDeletedData)
    (loaded : option (list ShortUrl.t)) (err : JsError) :
  Forall2
    (fun before after =>
       (ShortUrl.clicksTotal before ≤ ShortUrl.clicksTotal after ↔
        (∀ i c, cu_shortUrlId data = Some i → cu_newClickCount data = Some c →
                i ≠ 0 → ShortUrl.id before = i → ShortUrl.clicksTotal before ≤ c)) ∧
       (∀ i c, cu_shortUrlId data = Some i → cu_newClickCount data = Some c →
               i ≠ 0 → ShortUrl.id before = i → ShortUrl.clicksTotal after = c) ∧
       (0 ≤ ShortUrl.clicksTotal before →
        (∀ c, cu_newClickCount data = Some c → 0 ≤ c) →
        0 ≤ ShortUrl.clicksTotal after))
    (urls st) (urls (exec (onClickUpdate data) st)) ∧
  Forall2
    (fun before after =>
       (ShortUrl.clicksTotal before ≤ ShortUrl.clicksTotal after ↔
        (ShortUrl.id before = urlId → ShortUrl.clicksTotal before ≤ n)) ∧
       (0 ≤ ShortUrl.clicksTotal before → 0 ≤ n → 0 ≤ ShortUrl.clicksTotal after))
    (urls st) (urls (exec (updateUrlClicks urlId n) st)) ∧
  urls st `suffix_of` urls (exec (createUrl (Normal newUrl)) st) ∧
  urls st `suffix_of` urls (exec (onUrlCreated created) st) ∧
  urls (exec (deleteUrl (Normal tt) id) st) `sublist_of` urls st ∧
  urls (exec (onUrlDeleted deleted) st) `sublist_of` urls st ∧
  urls (exec (createUrl (Throw err)) st) = urls st ∧
  urls (exec (deleteUrl (Throw err) id) st) = urls st ∧
  urls (exec (fetchUrls (Normal loaded)) st) = default [] loaded ∧
  urls (exec (fetchUrls (Throw err)) st) = urls st.
Proof.
  split; [|split; [|split; [|split; [|split; [|split; [|split; [|split; [|split]]]]]]]].
  - assert (∀ prev, Forall2
      (fun before after =>
         (ShortUrl.clicksTotal before ≤ ShortUrl.clicksTotal after ↔
          (∀ i c, cu_shortUrlId data = Some i → cu_newClickCount data = Some c →
                  i ≠ 0 → ShortUrl.id before = i → ShortUrl.clicksTotal before ≤ c)) ∧
         (∀ i c, cu_shortUrlId data = Some i → cu_newClickCount data = Some c →
                 i ≠ 0 → ShortUrl.id before = i → ShortUrl.clicksTotal after = c) ∧
         (0 ≤ ShortUrl.clicksTotal before →
          (∀ c, cu_newClickCount data = Some c → 0 ≤ c) →
          0 ≤ ShortUrl.clicksTotal after))
      prev
      (match cu_shortUrlId data, cu_newClickCount data with
       | Some i, Some c => if decide (i = 0) then prev else click_step i c <$> prev
       | _, _ => prev
       end)) as Hall.
    { intros prev. induction prev as [|url prev IH].
      - destruct (cu_shortUrlId data), (cu_newClickCount data); try case_decide; constructor.
      - destruct (cu_shortUrlId data) as [i|] eqn:Hi, (cu_newClickCount data) as [c|] eqn:Hc;
          try (constructor; [|exact IH]; split; [split; [intros _ ? ? ?; congruence | lia]|];
               split; [intros ? ? ?; congruence | auto]; fail).
        destruct (decide (i = 0)) as [->|Hne].
        + constructor; [|exact IH].
          split; [split; [intros _ ? ? [= <-] _ ?; done | lia]|].
          split; [intros ? ? [= <-] _ ?; done | auto].
        + rewrite fmap_cons. constructor; [|exact IH].
          unfold click_step. case_decide as Hid; simpl.
          * split; [split; [intros Hle ? ? [= <-] [= <-] _ _; exact Hle | intros H; by apply (H i c)]|].
            split; [intros ? ? [= <-] [= <-] _ _; done | intros _ H; by apply H].
          * split; [split; [intros _ ? ? [= <-] _ _ ?; done | lia]|].
            split; [intros ? ? [= <-] _ _ ?; done | auto]. }
    specialize (Hall (urls st)).
    destruct data as [[i|] [c|]]; simpl in *;
      try (rewrite urls_onClickUpdate_missing by (simpl; auto); exact Hall).
    rewrite urls_onClickUpdate. exact Hall.
  - rewrite urls_updateUrlClicks.
    induction (urls st) as [|url prev IH]; [constructor|].
    rewrite fmap_cons. constructor; [|exact IH].
    unfold click_step. case_decide; simpl; split; try tauto; lia.
  - by apply suffix_cons_r.
  - destruct created as [[shortUrl|]]; [|done].
    rewrite urls_onUrlCreated. case_decide; [by apply suffix_cons_r | done].
  - apply sublist_filter.
  - destruct deleted as [[i|]]; [|done].
    rewrite urls_onUrlDeleted. case_decide; [done | apply sublist_filter].
  - done.
  - done.
  - by destruct loaded.
  - done.
Qed.

(** C2, as stated, fails: when the pushed notification arrives before the
    HTTP response of [createUrl], [createUrl] prepends the record a second
    time, and a later [RecordCreated] push for that id leaves both copies
    in the collection. *)
Lemma urlCreated_push_keeps_duplicates :
  let pushed := {| uc_shortUrl := Some (url 5 0) |} in
  let st := exec (onUrlCreated pushed ;; createUrl (Normal (url 5 0))) (hook []) in
  urls st = [url 5 0; url 5 0] ∧
  count_id 5 (urls (exec (onUrlCreated pushed) st)) = 2%nat.
Proof. by split. Qed.

(** C2, amended.  The [RecordCreated] handler prepends the pushed record
    when no record of the collection carries its id and leaves the
    collection unchanged otherwise.  Afterwards the collection holds at
    least one record with that id: as many as before, or one when there was
    none; so exactly one if and only if it held at most one before.  After
    [createUrl] succeeds and the push for the same record follows, the
    collection holds one record with that id more than before [createUrl]:
    exactly one when it held none. *)
Theorem urlCreated_push_dedup st (shortUrl : ShortUrl.t) :
  let i := ShortUrl.id shortUrl in
  let pushed := {| uc_shortUrl := Some shortUrl |} in
  let after := urls (exec (onUrlCreated pushed) st) in
  after = (if decide (count_id i (urls st) = 0%nat)
           then shortUrl :: urls st else urls st) ∧
  count_id i after = Nat.max 1 (count_id i (urls st)) ∧
  (count_id i after = 1%nat ↔ (count_id i (urls st) ≤ 1)%nat) ∧
  count_id i (urls (exec (createUrl (Normal shortUrl) ;; onUrlCreated pushed) st)) =
    S (count_id i (urls st)).
Proof.
  cbn zeta.
  assert (count_id (ShortUrl.id shortUrl)
            (urls (exec (onUrlCreated {| uc_shortUrl := Some shortUrl |}) st)) =
          Nat.max 1 (count_id (ShortUrl.id shortUrl) (urls st))) as Hcount.
  { rewrite urls_onUrlCreated. case_decide as H0.
    - rewrite count_id_cons, decide_True, H0; done.
    - lia. }
  split; [apply urls_onUrlCreated|]. split; [exact Hcount|]. split; [lia|].
  rewrite (exec_seq _ _ _ shortUrl) by apply urls_createUrl_resolved.
  rewrite urls_onUrlCreated.
  destruct (urls_createUrl_resolved st shortUrl) as [-> _].
  rewrite decide_False; rewrite count_id_cons, decide_True by done; [done|lia].
Qed.

(** C4, as stated, fails for the id 0: the [RecordDeleted] handler tests
    [data.shortUrlId] for truthiness and ignores the event, so the record
    is still there after the click update. *)
Lemma delete_then_click_keeps_id_zero :
  urls (exec (onUrlDeleted {| ud_shortUrlId := Some 0 |} ;; updateUrlClicks 0 4)
             (hook [url 0 1])) = [url 0 4].
Proof. reflexivity. Qed.

(** C4, amended.  For an id other than 0, after the [RecordDeleted] handler
    and then a click update for the same id (through [updateUrlClicks], or
    through the subscribed handler [onClickUpdate]) no record of the
    collection carries that id. *)
Theorem delete_then_click_no_resurrection st (i n : Z) :
  i ≠ 0 →
  Forall (fun url => ShortUrl.id url ≠ i)
    (urls (exec (onUrlDeleted {| ud_shortUrlId := Some i |} ;; updateUrlClicks i n) st)) ∧
  Forall (fun url => ShortUrl.id url ≠ i)
    (urls (exec (onUrlDeleted {| ud_shortUrlId := Some i |} ;;
                 onClickUpdate {| cu_shortUrlId := Some i; cu_newClickCount := Some n |}) st)).
Proof.
  intros Hi.
  rewrite !(exec_seq _ _ _ tt) by apply result_onUrlDeleted.
  rewrite urls_onClickUpdate, urls_updateUrlClicks, urls_onUrlDeleted.
  rewrite !decide_False by done.
  split; apply count_id_zero; rewrite count_id_click_step; apply count_id_filter_ne.
Qed.

Lemma delete_then_click_no_resurrection_witness :
  (1 ≠ 0) ∧
  Forall (fun url => ShortUrl.id url ≠ 1)
    (urls (exec (onUrlDeleted {| ud_shortUrlId := Some 1 |} ;; updateUrlClicks 1 4)
                (hook [url 1 3; url 2 0]))) ∧
  Forall (fun url => ShortUrl.id url ≠ 1)
    (urls (exec (onUrlDeleted {| ud_shortUrlId := Some 1 |} ;;
                 onClickUpdate {| cu_shortUrlId := Some 1; cu_newClickCount := Some 4 |})
                (hook [url 1 3; url 2 0]))).
Proof.
  split; [done|].
  apply (delete_then_click_no_resurrection (hook [url 1 3; url 2 0]) 1 4). done.
Defined.

(** C5.  When the gateway rejects the delete, [deleteUrl] leaves the
    collection as it was (so a record with that id is still in it) and
    rethrows the error; when the gateway call succeeds, the records with
    that id, and only they, are removed. *)
Theorem deleteUrl_removes_only_on_success st (id : Z) (err : JsError) :
  urls (exec (deleteUrl (Throw err) id) st) = urls st ∧
  result (deleteUrl (Throw err) id) st = Throw err ∧
  urls (exec (deleteUrl (Normal tt) id) st) =
    filter (fun url => ShortUrl.id url ≠ id) (urls st) ∧
  result (deleteUrl (Normal tt) id) st = Normal tt.
Proof. by repeat split. Qed.

Example deleteUrl_rejected :
  urls (exec (deleteUrl (Throw {| message := "Failed to delete URL"; status := Some 500 |}) 1)
             (hook [url 1 3; url 2 0])) = [url 1 3; url 2 0] ∧
  urls (exec (deleteUrl (Normal tt) 1) (hook [url 1 3; url 2 0])) = [url 2 0].
Proof. by split. Qed.
End UseUrlsClaims.

(** * Properties of the push channel manager *)

Section SocketFacts.
Import Socket.
Local Open Scope eff_scope.
Context {Data App : Type}.

Implicit Types (w : World Data App) (data : Payload Data)
  (event : string) (cbs : list (Callback Data App)).

Lemma guarded_call_spec event data callback w :
  ∃ a t, guarded_call event data callback w =
           (mkWorld (mgr w) a (authToken w) (next_sid w) (trace w ++ t), Normal tt) ∧
         listener_trace event [callback] t.
Proof.
  unfold guarded_call, try_catch, invoke, listener_trace.
  destruct (call callback data (app w)) as [a [e|]] eqn:Hcall.
  - exists a, [Invoked (ref callback) event data; Console (LogListenerError event e)].
    split; [unfold effect, modify; simpl; by rewrite <- app_assoc|].
    simpl. by rewrite decide_True.
  - exists a, [Invoked (ref callback) event data].
    split; [done|]. simpl. by rewrite decide_True.
Qed.

Lemma listener_trace_app event cb cbs t1 t2 :
  listener_trace event [cb] t1 → listener_trace event cbs t2 →
  listener_trace event (cb :: cbs) (t1 ++ t2).
Proof.
  unfold listener_trace, invoked_refs, timeouts, dispatched.
  intros (Hi1 & Ht1 & Hd1) (Hi2 & Ht2 & Hd2).
  rewrite !omap_app, Hi1, Hi2, Ht1, Ht2.
  split; [done|]. split; [done|].
  intros ev. by rewrite omap_app, Hd1, Hd2.
Qed.

Lemma listeners_loop_spec event data cbs w :
  ∃ a t, forEach cbs (guarded_call event data) w =
           (mkWorld (mgr w) a (authToken w) (next_sid w) (trace w ++ t), Normal tt) ∧
         listener_trace event cbs t.
Proof.
  revert w. induction cbs as [|cb cbs IH]; intros w.
  - exists (app w), []. split; [|by repeat split].
    simpl. unfold ret. rewrite app_nil_r. by destruct w.
  - destruct (guarded_call_spec event data cb w) as (a1 & t1 & Hstep & Ht1).
    simpl. unfold bind. rewrite Hstep.
    destruct (IH (mkWorld (mgr w) a1 (authToken w) (next_sid w) (trace w ++ t1)))
      as (a2 & t2 & Hrest & Ht2).
    rewrite Hrest. simpl. exists a2, (t1 ++ t2).
    split; [by rewrite app_assoc | by apply listener_trace_app].
Qed.

Lemma emit_unfold event data w :
  emit event data w =
  let w' := mkWorld (mgr w) (app w) (authToken w) (next_sid w)
                    (trace w ++ [Dispatched event data]) in
  match listeners (mgr w) !! event with
  | Some cbs => forEach cbs (guarded_call event data) w'
  | None => (w', Normal tt)
  end.
Proof.
  unfold emit, bind, effect, modify, get. simpl.
  by destruct (listeners (mgr w) !! event).
Qed.

(** [emit] completes normally, changes neither the manager's fields nor
    the token, writes one [Dispatched] entry and calls every listener of
    the event. *)
Lemma emit_spec event data w :
  ∃ a t, emit event data w =
           (mkWorld (mgr w) a (authToken w) (next_sid w)
                    (trace w ++ Dispatched event data :: t), Normal tt) ∧
         listener_trace event (default [] (listeners (mgr w) !! event)) t.
Proof.
  rewrite emit_unfold.
  destruct (listeners (mgr w) !! event) as [cbs|] eqn:Hl; simpl.
  - destruct (listeners_loop_spec event data cbs
                (mkWorld (mgr w) (app w) (authToken w) (next_sid w)
                         (trace w ++ [Dispatched event data])))
      as (a & t & Hloop & Ht).
    exists a, t. split; [|done].
    rewrite Hloop. simpl. by rewrite <- app_assoc.
  - exists (app w), []. split; [done|]. by repeat split.
Qed.
End SocketFacts.

Section SocketClaims.
Import Socket Samples.
Local Open Scope eff_scope.
Context {Data App : Type}.

Implicit Types (w : World Data App) (data : Payload Data)
  (event : string) (cbs : list (Callback Data App)).

(** Replace the call of [emit] in the goal by its outcome: the application
    state [a] and the trace part [t] left by the listeners. *)
Ltac run_emit a t Ht :=
  match goal with
  | |- context [emit ?e ?d ?w0] =>
      let Hemit := fresh "Hemit" in
      destruct (emit_spec e d w0) as (a & t & Hemit & Ht); rewrite Hemit; clear Hemit
  end.


Lemma timeouts_app (t1 t2 : list (Effect Data)) :
  timeouts (t1 ++ t2) = timeouts t1 ++ timeouts t2.
Proof. apply omap_app. Qed.


Lemma handleReconnect_below w :
  reconnectAttempts (mgr w) < maxReconnectAttempts (mgr w) →
  handleReconnect w =
    (let k := reconnectAttempts (mgr w) + 1 in
     let d := reconnectDelay (mgr w) * 2 ^ (k - 1) in
     (mkWorld (set_reconnectAttempts k (mgr w)) (app w) (authToken w) (next_sid w)
              (trace w ++ [Console (LogReconnectIn d k); SetTimeout d]),
      Normal tt)).
Proof.
  intros Hlt. unfold handleReconnect, bind, get. simpl.
  rewrite decide_False by lia. unfold effect, modify. simpl. by rewrite <- app_assoc.
Qed.

Lemma handleReconnect_at_cap w :
  maxReconnectAttempts (mgr w) ≤ reconnectAttempts (mgr w) →
  handleReconnect w =
    emit "maxReconnectAttemptsReached" EmptyObject
         (mkWorld (mgr w) (app w) (authToken w) (next_sid w)
                  (trace w ++ [Console LogMaxReconnect])).
Proof.
  intros Hge. unfold handleReconnect, bind, get. simpl.
  by rewrite decide_True by lia.
Qed.

Lemma reconnectAttempts_io_sets_connected b (m : Manager Data App) :
  reconnectAttempts (io_sets_connected b m) = reconnectAttempts m ∧
  listeners (io_sets_connected b m) = listeners m.
Proof. unfold io_sets_connected. by destruct (socket m). Qed.




(** ['disconnect'] with a reason other than a server-side disconnect: the
    subscribers of ['connection'] are told, nothing is scheduled. *)
Lemma onDisconnect_local reason w :
  reason ≠ "io server disconnect" →
  ∃ a t, onDisconnect reason w =
           (mkWorld (set_isConnected false (io_sets_connected false (mgr w))) a
                    (authToken w) (next_sid w) (trace w ++ t), Normal tt).
Proof.
  intros Hreason. unfold onDisconnect, bind, set_mgr, effect, modify. simpl.
  run_emit a t Ht.
  simpl. rewrite decide_False by done.
  eexists a, _. unfold ret. simpl. by rewrite <- app_assoc.
Qed.

(** C7, amended.  [disconnect()] completes normally and never changes the
    reconnect attempt counter.  When the manager holds a socket, the socket
    is disconnected, [socket] becomes null, [isConnected] becomes false and
    all listeners are removed.  When it holds none, nothing changes at all
    (listeners that are registered stay registered). *)
Theorem disconnect_effect w :
  let w' := exec disconnect w in
  result disconnect w = Normal tt ∧
  reconnectAttempts (mgr w') = reconnectAttempts (mgr w) ∧
  match socket (mgr w) with
  | Some s =>
      socket (mgr w') = None ∧ isConnected (mgr w') = false ∧
      listeners (mgr w') = ∅ ∧
      ∃ t, trace w' = trace w ++ IoDisconnect (sid s) :: t
  | None => w' = w
  end.
Proof.
  cbn zeta. unfold result, exec, disconnect, bind, get. simpl.
  destruct (socket (mgr w)) as [s|] eqn:Hs; [|done].
  destruct (connected s).
  - match goal with |- context [onDisconnect ?r ?w0] =>
      destruct (onDisconnect_local r w0) as (a & t & Hd); [done|]; rewrite Hd end.
    unfold set_mgr, modify, io_sets_connected. simpl. rewrite Hs. simpl.
    repeat split; try done. exists t. by rewrite <- app_assoc.
  - unfold ret, set_mgr, modify. simpl. repeat split; try done. by exists [].
Qed.
End SocketClaims.

(** A listener that throws does not keep the next one from being called. *)
Example emit_after_failing_listener :
  let w := Eff.exec (bind (Socket.on "clickUpdate" (Samples.failing 1))
                          (fun _ => Socket.on "clickUpdate" (Samples.counting 2)))
                    Samples.world0 in
  Eff.result (Socket.emit "clickUpdate" (Socket.ServerData tt)) w = Normal tt ∧
  Socket.invoked_refs "clickUpdate"
    (Socket.trace (Eff.exec (Socket.emit "clickUpdate" (Socket.ServerData tt)) w)) = [1; 2]%nat ∧
  Socket.app (Eff.exec (Socket.emit "clickUpdate" (Socket.ServerData tt)) w) = 1%nat.
Proof. vm_compute. done. Qed.


(** C7, as stated, fails: [disconnect()] does not touch the reconnect
    attempt counter.  After three failed attempts it is 3, not the initial 0,
    although the socket is gone and the listeners are cleared. *)
Lemma disconnect_keeps_reconnect_counter :
  let w := Eff.exec Samples.fail_then_disconnect Samples.world0 in
  Socket.reconnectAttempts (Socket.mgr w) = 3 ∧
  Socket.reconnectAttempts (Socket.mgr Samples.world0) = 0 ∧
  Socket.socket (Socket.mgr w) = None ∧
  Socket.listeners (Socket.mgr w) = ∅.
Proof. vm_compute. done. Qed.

(** * Properties of the credential store *)

Section AuthClaims.
Import Auth.
Variable atob : string -> option string.
Variable JSON_parse : string -> option Json.
Variable ToNumber_other : Json -> option Z.

Local Abbreviation isTokenExpired := (isTokenExpired atob JSON_parse ToNumber_other).
Local Abbreviation isAuthenticated := (isAuthenticated atob JSON_parse ToNumber_other).

Lemma isTokenExpired_decoded (now : Z) (st : AuthState.t) token text fields (exp : Z) :
  AuthState.token st = Some token → token ≠ "" →
  atob (second_piece (split_dot token)) = Some text →
  JSON_parse text = Some (JObject fields) →
  fields !! "exp" = Some (JNumber exp) →
  isTokenExpired now st = bool_decide (exp * 1000 ≤ now).
Proof.
  intros Htok Hne Hatob Hparse Hexp. unfold Auth.isTokenExpired.
  rewrite Htok, decide_False by done.
  rewrite Hatob. simpl. rewrite Hparse. simpl. rewrite Hexp. simpl.
  apply bool_decide_ext. lia.
Qed.

(** C8.  For a stored token whose payload decodes to an object with the
    numeric claim [exp] (seconds), [isAuthenticated()] is false as soon as
    [exp] * 1000 is at most [Date.now()], whatever the [isAuthenticated]
    flag says; one millisecond earlier it still is the flag: the
    comparison has no tolerance. *)
Theorem isAuthenticated_false_when_expired (now : Z) (st : AuthState.t)
    token text fields (exp : Z) :
  AuthState.token st = Some token → token ≠ "" →
  atob (second_piece (split_dot token)) = Some text →
  JSON_parse text = Some (JObject fields) →
  fields !! "exp" = Some (JNumber exp) →
  (exp * 1000 ≤ now → isAuthenticated now st = false) ∧
  (now < exp * 1000 → isAuthenticated now st = AuthState.isAuthenticated st).
Proof.
  intros Htok Hne Hatob Hparse Hexp. unfold Auth.isAuthenticated.
  rewrite (isTokenExpired_decoded now st token text fields exp) by done.
  split; intros Hcmp.
  - rewrite bool_decide_true by done. apply andb_false_r.
  - rewrite bool_decide_false by lia. apply andb_true_r.
Qed.
End AuthClaims.

(** The scenario of the specification: [exp] is one second before now. *)
Lemma isAuthenticated_false_when_expired_witness :
  AuthState.token Samples.session = Some Samples.jwt ∧
  Samples.jwt ≠ "" ∧
  Samples.sample_atob (Auth.second_piece (Auth.split_dot Samples.jwt)) =
    Some Samples.payload_text ∧
  Samples.sample_JSON_parse Samples.payload_text =
    Some (JObject {[ "exp" := JNumber 1700000000 ]}) ∧
  ({[ "exp" := JNumber 1700000000 ]} : gmap string Json) !! "exp" = Some (JNumber 1700000000) ∧
  1700000000 * 1000 ≤ 1700000001000 ∧
  AuthState.isAuthenticated Samples.session = true ∧
  Auth.isAuthenticated Samples.sample_atob Samples.sample_JSON_parse
    Samples.sample_ToNumber_other 1700000001000 Samples.session = false.
Proof.
  assert (Hle : 1700000000 * 1000 ≤ 1700000001000) by (vm_compute; discriminate).
  split; [reflexivity|]. split; [discriminate|]. split; [reflexivity|].
  split; [reflexivity|]. split; [reflexivity|]. split; [exact Hle|].
  split; [reflexivity|].
  apply (isAuthenticated_false_when_expired
           Samples.sample_atob Samples.sample_JSON_parse Samples.sample_ToNumber_other
           1700000001000 Samples.session Samples.jwt Samples.payload_text
           {[ "exp" := JNumber 1700000000 ]} 1700000000);
    try reflexivity; try exact Hle; discriminate.
Defined.

(** * Further properties of the record synchroniser *)

Section UseUrlsMore.
Import UseUrls UrlQueries.
Local Open Scope eff_scope.

Implicit Types (st : State) (prev : list ShortUrl.t) (url : ShortUrl.t).

(** X1.  [fetchUrls] never throws and always ends with [isLoading] false.
    When the gateway rejects, the collection is kept, [error] is the
    error's message (or the fallback text when that is empty) and one error
    toast is shown; when it resolves, the collection is replaced by the
    response data, or by the empty list when the data is not an array, and
    [error] is cleared. *)
Theorem fetchUrls_outcome st (err : JsError) (data : option (list ShortUrl.t)) :
  let failed := exec (fetchUrls (Throw err)) st in
  let loaded := exec (fetchUrls (Normal data)) st in
  result (fetchUrls (Throw err)) st = Normal tt ∧
  urls failed = urls st ∧
  error failed = Some (str_or (message err) "Errore nel caricamento degli URL") ∧
  isLoading failed = false ∧
  toasts failed = toasts st ++ [ToastError "Errore nel caricamento degli URL"] ∧
  result (fetchUrls (Normal data)) st = Normal tt ∧
  urls loaded = default [] data ∧
  error loaded = None ∧
  isLoading loaded = false ∧
  toasts loaded = toasts st.
Proof. cbn zeta. by destruct data. Qed.

(** X2.  When the gateway rejects, [createUrl] leaves the collection as it
    was, shows one error toast with the error's message (or the fallback
    text) and rethrows the same error; when it resolves, the new record is
    returned and is the first of the collection, in front of the old ones. *)
Theorem createUrl_outcome st (err : JsError) (newUrl : ShortUrl.t) :
  urls (exec (createUrl (Throw err)) st) = urls st ∧
  result (createUrl (Throw err)) st = Throw err ∧
  toasts (exec (createUrl (Throw err)) st) =
    toasts st ++ [ToastError (str_or (message err) "Errore nella creazione dell'URL")] ∧
  urls (exec (createUrl (Normal newUrl)) st) = newUrl :: urls st ∧
  result (createUrl (Normal newUrl)) st = Normal newUrl ∧
  toasts (exec (createUrl (Normal newUrl)) st) =
    toasts st ++ [ToastSuccess "URL abbreviato creato con successo!"].
Proof. by repeat split. Qed.

(** X3.  [deleteUrl] on top of the gateway's [deleteShortUrl]: for an HTTP
    response that is not ok, whatever its body, the collection is kept, the
    toast and the rethrown error say "Failed to delete URL" and the error
    carries the HTTP status; for an ok response the records with the id are
    removed; a network failure is rethrown as it is, the collection kept. *)
Theorem deleteUrl_over_http st (id : Z) (response : Response.t unit) (network : JsError) :
  let call := Api.deleteShortUrl (Normal response) in
  (if Response.ok response then
     urls (exec (deleteUrl call id) st) = filter (fun url => ShortUrl.id url ≠ id) (urls st) ∧
     result (deleteUrl call id) st = Normal tt
   else
     urls (exec (deleteUrl call id) st) = urls st ∧
     result (deleteUrl call id) st =
       Throw (Api.ApiError "Failed to delete URL" (Response.status response)) ∧
     toasts (exec (deleteUrl call id) st) = toasts st ++ [ToastError "Failed to delete URL"]) ∧
  urls (exec (deleteUrl (Api.deleteShortUrl (Throw network)) id) st) = urls st ∧
  result (deleteUrl (Api.deleteShortUrl (Throw network)) id) st = Throw network.
Proof.
  cbn zeta. unfold Api.deleteShortUrl, Api.after_fetch.
  destruct (Response.ok response); by repeat split.
Qed.

Lemma round53_safe (x : Z) : Number.safe x → Number.round53 x = x.
Proof.
  unfold Number.safe, Number.round53. intros H.
  rewrite decide_True; [done | lia].
Qed.

Lemma of_exact_safe (x : Z) : Number.safe x → Number.of_exact x = Number.Num x.
Proof.
  intros H. unfold Number.of_exact. rewrite round53_safe by done. cbn zeta.
  rewrite decide_True; [done|].
  assert (2 ^ 53 < 2 ^ 1024) by (apply Z.pow_lt_mono_r; lia).
  unfold Number.safe in H. lia.
Qed.

Local Abbreviation counted prev := (Forall (fun url => 0 ≤ ShortUrl.clicksTotal url) prev).

Lemma sum_clicks_cons url prev :
  sum_clicks (url :: prev) = ShortUrl.clicksTotal url + sum_clicks prev.
Proof. reflexivity. Qed.

Lemma sum_clicks_nonneg prev : counted prev → 0 ≤ sum_clicks prev.
Proof.
  induction 1 as [|url prev Hurl _ IH]; [done|]. rewrite sum_clicks_cons. lia.
Qed.

(** Below 2^53 the additions of [getTotalClicks] are exact. *)
Lemma foldl_add_exact prev (acc : Z) :
  counted prev → 0 ≤ acc → acc + sum_clicks prev ≤ 2 ^ 53 →
  foldl (fun total url => Number.add total (ShortUrl.clicksTotal url)) (Number.Num acc) prev =
  Number.Num (acc + sum_clicks prev).
Proof.
  intros Hall. revert acc.
  induction Hall as [|url prev Hurl Hall IH]; intros acc Hacc Hsum; simpl.
  - f_equal. unfold sum_clicks. simpl. lia.
  - pose proof (sum_clicks_nonneg _ Hall) as Hrest.
    rewrite sum_clicks_cons in Hsum.
    rewrite of_exact_safe by (unfold Number.safe; lia).
    rewrite IH by lia. f_equal. lia.
Qed.

Lemma getTotalClicks_exact prev :
  counted prev → sum_clicks prev ≤ 2 ^ 53 →
  getTotalClicks prev = Number.Num (sum_clicks prev).
Proof.
  intros Hall Hsum. unfold getTotalClicks.
  by rewrite foldl_add_exact by (done || lia).
Qed.

Lemma sum_clicks_filter (i : Z) prev :
  sum_clicks (filter (fun url => ShortUrl.id url ≠ i) prev) =
  sum_clicks prev - sum_clicks (filter (fun url => ShortUrl.id url = i) prev).
Proof.
  induction prev as [|url prev IH]; [done|].
  rewrite !filter_cons, sum_clicks_cons.
  destruct (decide (ShortUrl.id url = i)) as [Heq|Hne].
  - rewrite decide_False by tauto. rewrite sum_clicks_cons. lia.
  - rewrite decide_True by done. rewrite sum_clicks_cons. lia.
Qed.

Lemma sum_clicks_click_step (i n : Z) prev :
  sum_clicks (click_step i n <$> prev) =
  sum_clicks prev - sum_clicks (filter (fun url => ShortUrl.id url = i) prev) +
  n * Z.of_nat (length (filter (fun url => ShortUrl.id url = i) prev)).
Proof.
  induction prev as [|url prev IH]; [simpl; lia|].
  rewrite fmap_cons, filter_cons, !sum_clicks_cons, IH.
  unfold click_step at 1. case_decide; [rewrite sum_clicks_cons; simpl|]; lia.
Qed.

Lemma counted_click_step (i n : Z) prev :
  0 ≤ n → counted prev → counted (click_step i n <$> prev).
Proof.
  intros Hn Hall. apply Forall_fmap. eapply Forall_impl; [exact Hall|].
  intros url Hurl. simpl. unfold click_step. by case_decide.
Qed.

Lemma counted_filter (P : ShortUrl.t → Prop) `{∀ url, Decision (P url)} prev :
  counted prev → counted (filter P prev).
Proof.
  rewrite !Forall_forall. intros Hall url [_ Hin]%list_elem_of_filter. by apply Hall.
Qed.

Lemma sum_clicks_matching_le (i : Z) prev :
  counted prev →
  0 ≤ sum_clicks (filter (fun url => ShortUrl.id url = i) prev) ≤ sum_clicks prev.
Proof.
  intros Hall.
  pose proof (sum_clicks_nonneg _ (counted_filter (fun url => ShortUrl.id url = i) _ Hall)).
  pose proof (sum_clicks_nonneg _ (counted_filter (fun url => ShortUrl.id url ≠ i) _ Hall)) as H2.
  rewrite sum_clicks_filter in H2. lia.
Qed.

(** X4.  How [getTotalClicks] follows the collection while the counters are
    not negative and their sums stay within 2^53, where the additions of
    numbers are exact: the total is the sum of the counters; a created
    record adds its counter; deleting an id subtracts the counters of the
    records with that id; a click update replaces the counters of the
    records with its id by the carried count. *)
Theorem getTotalClicks_follows_collection st (urlId n : Z) (newUrl : ShortUrl.t) :
  Forall (fun url => 0 ≤ ShortUrl.clicksTotal url) (urls st) →
  0 ≤ ShortUrl.clicksTotal newUrl →
  0 ≤ n →
  ShortUrl.clicksTotal newUrl + sum_clicks (urls st) ≤ 2 ^ 53 →
  sum_clicks (urls (exec (updateUrlClicks urlId n) st)) ≤ 2 ^ 53 →
  let matching := filter (fun url => ShortUrl.id url = urlId) (urls st) in
  getTotalClicks (urls st) = Number.Num (sum_clicks (urls st)) ∧
  getTotalClicks matching = Number.Num (sum_clicks matching) ∧
  getTotalClicks (urls (exec (createUrl (Normal newUrl)) st)) =
    Number.Num (ShortUrl.clicksTotal newUrl + sum_clicks (urls st)) ∧
  getTotalClicks (urls (exec (deleteUrl (Normal tt) urlId) st)) =
    Number.Num (sum_clicks (urls st) - sum_clicks matching) ∧
  getTotalClicks (urls (exec (updateUrlClicks urlId n) st)) =
    Number.Num (sum_clicks (urls st) - sum_clicks matching + n * Z.of_nat (length matching)).
Proof.
  intros Hall Hnew Hn Hcreated Hupdated. cbn zeta.
  rewrite urls_updateUrlClicks in *.
  change (urls (exec (deleteUrl (Normal ()) urlId) st))
    with (filter (fun url => ShortUrl.id url ≠ urlId) (urls st)).
  change (urls (exec (createUrl (Normal newUrl)) st)) with (newUrl :: urls st).
  pose proof (sum_clicks_matching_le urlId _ Hall) as Hmatching.
  repeat split.
  - apply getTotalClicks_exact; [done | lia].
  - apply getTotalClicks_exact; [by apply counted_filter | lia].
  - rewrite getTotalClicks_exact; [done | by constructor | by rewrite sum_clicks_cons].
  - rewrite getTotalClicks_exact; [by rewrite sum_clicks_filter | by apply counted_filter |].
    rewrite sum_clicks_filter. lia.
  - rewrite getTotalClicks_exact; [by rewrite sum_clicks_click_step | by apply counted_click_step | done].
Qed.

Lemma getTotalClicks_follows_collection_witness :
  let st := Samples.hook [Samples.url 1 3; Samples.url 2 4] in
  Forall (fun url => 0 ≤ ShortUrl.clicksTotal url) (urls st) ∧
  0 ≤ ShortUrl.clicksTotal (Samples.url 5 2) ∧
  0 ≤ 9 ∧
  ShortUrl.clicksTotal (Samples.url 5 2) + sum_clicks (urls st) ≤ 2 ^ 53 ∧
  sum_clicks (urls (exec (updateUrlClicks 1 9) st)) ≤ 2 ^ 53 ∧
  getTotalClicks (urls st) = Number.Num 7 ∧
  getTotalClicks (urls (exec (createUrl (Normal (Samples.url 5 2))) st)) = Number.Num 9 ∧
  getTotalClicks (urls (exec (deleteUrl (Normal tt) 1) st)) = Number.Num 4 ∧
  getTotalClicks (urls (exec (updateUrlClicks 1 9) st)) = Number.Num 13.
Proof.
  cbn zeta.
  assert (H1 : Forall (fun url => 0 ≤ ShortUrl.clicksTotal url)
                 (urls (Samples.hook [Samples.url 1 3; Samples.url 2 4]))).
  { repeat constructor; simpl; lia. }
  assert (H2 : 0 ≤ ShortUrl.clicksTotal (Samples.url 5 2)) by (simpl; lia).
  assert (H3 : 0 ≤ 9) by lia.
  assert (H4 : ShortUrl.clicksTotal (Samples.url 5 2) +
               sum_clicks (urls (Samples.hook [Samples.url 1 3; Samples.url 2 4])) ≤ 2 ^ 53)
    by (vm_compute; discriminate).
  assert (H5 : sum_clicks (urls (exec (updateUrlClicks 1 9)
                 (Samples.hook [Samples.url 1 3; Samples.url 2 4]))) ≤ 2 ^ 53)
    by (vm_compute; discriminate).
  split; [exact H1|]. split; [exact H2|]. split; [exact H3|].
  split; [exact H4|]. split; [exact H5|].
  destruct (getTotalClicks_follows_collection
              (Samples.hook [Samples.url 1 3; Samples.url 2 4]) 1 9 (Samples.url 5 2)
              H1 H2 H3 H4 H5) as (Ht & _ & Hc & Hd & Hu).
  split; [exact Ht|]. split; [exact Hc|]. split; [exact Hd | exact Hu].
Defined.

(** Beyond 2^53 the total is rounded, and the order of the records counts:
    2^53 + 1 is not a double, so adding 1 to 2^53 changes nothing, while
    1 + 1 + 2^53 is exact. *)
Example getTotalClicks_rounds :
  getTotalClicks [Samples.url 1 (2 ^ 53); Samples.url 2 1] = Number.Num (2 ^ 53) ∧
  getTotalClicks [Samples.url 1 (2 ^ 53); Samples.url 2 1; Samples.url 3 1] =
    Number.Num (2 ^ 53) ∧
  getTotalClicks [Samples.url 2 1; Samples.url 3 1; Samples.url 1 (2 ^ 53)] =
    Number.Num (2 ^ 53 + 2) ∧
  getTotalClicks [Samples.url 1 (2 ^ 1023); Samples.url 2 (2 ^ 1023)] =
    Number.Infinity false.
Proof. by vm_compute. Qed.

(** X5.  Looking a record up by short code after a change of the collection:
    after [createUrl] the lookup of the new record's code gives the new
    record, also when an older record has the same code; after [deleteUrl]
    no lookup gives a record with the deleted id; and a lookup finds nothing
    exactly when no record has the code. *)
Theorem getUrlByShortCode_after_change st (id : Z) (newUrl : ShortUrl.t) (code : string) :
  getUrlByShortCode (urls (exec (createUrl (Normal newUrl)) st)) (ShortUrl.shortCode newUrl) =
    Some newUrl ∧
  (∀ url, getUrlByShortCode (urls (exec (deleteUrl (Normal tt) id) st)) code = Some url →
     ShortUrl.id url ≠ id ∧ ShortUrl.shortCode url = code ∧ url ∈ urls st) ∧
  (getUrlByShortCode (urls st) code = None ↔
   Forall (fun url => ShortUrl.shortCode url ≠ code) (urls st)).
Proof.
  split; [|split].
  - unfold getUrlByShortCode. simpl. by rewrite decide_True.
  - intros url. unfold getUrlByShortCode.
    change (urls (exec (deleteUrl (Normal ()) id) st))
      with (filter (fun url => ShortUrl.id url ≠ id) (urls st)).
    destruct (list_find _ _) as [[i u]|] eqn:Hfind; [|done].
    intros [= ->]. apply list_find_Some in Hfind as (Hi & Hcode & _).
    apply list_elem_of_lookup_2, list_elem_of_filter in Hi. tauto.
  - unfold getUrlByShortCode. rewrite fmap_None, list_find_None. done.
Qed.
End UseUrlsMore.

Section DatesFacts.
Import UrlQueries.
Variable Date_parse : string -> option Z.

Local Abbreviation active_test := (active_test Date_parse).
Local Abbreviation expired_test := (expired_test Date_parse).
Local Abbreviation getActiveUrls := (getActiveUrls Date_parse).
Local Abbreviation getExpiredUrls := (getExpiredUrls Date_parse).
Local Abbreviation isExpired := (isExpired Date_parse).
Local Abbreviation invalid_expiration := (invalid_expiration Date_parse).

(** A record is active, or expired, or has an invalid date; never two of
    these. *)
Lemma expiration_cases (now : Z) (url : ShortUrl.t) :
  (active_test now url = true ∧ expired_test now url = false ∧ ¬ invalid_expiration url) ∨
  (active_test now url = false ∧ expired_test now url = true ∧ ¬ invalid_expiration url) ∨
  (active_test now url = false ∧ expired_test now url = false ∧ invalid_expiration url).
Proof.
  unfold UrlQueries.active_test, UrlQueries.expired_test, UrlQueries.invalid_expiration.
  destruct (ShortUrl.expirationDate url) as [date|] eqn:Hdate.
  - destruct (decide (date = "")) as [->|Hne].
    + left. repeat split; try done. by intros (d & [= <-] & ? & _).
    + destruct (Date_parse date) as [t|] eqn:Ht.
      * destruct (decide (t > now)).
        -- left. rewrite bool_decide_true, bool_decide_false by lia.
           repeat split; try done. intros (d & [= <-] & _ & ?). congruence.
        -- right; left. rewrite bool_decide_false, bool_decide_true by lia.
           repeat split; try done. intros (d & [= <-] & _ & ?). congruence.
      * right; right. repeat split; try done. by exists date.
  - left. repeat split; try done. by intros (d & ? & _).
Qed.

(** The two tests at two readings of the clock: which dates pass both, and
    which pass neither. *)
Lemma expiration_cases_two (now1 now2 : Z) (url : ShortUrl.t) :
  (active_test now1 url = true ∧ expired_test now2 url = true ↔
   ∃ date t, ShortUrl.expirationDate url = Some date ∧ date ≠ "" ∧
             Date_parse date = Some t ∧ now1 < t ≤ now2) ∧
  (active_test now1 url = false ∧ expired_test now2 url = false ↔
   invalid_expiration url ∨
   ∃ date t, ShortUrl.expirationDate url = Some date ∧ date ≠ "" ∧
             Date_parse date = Some t ∧ now2 < t ≤ now1).
Proof.
  unfold UrlQueries.active_test, UrlQueries.expired_test, UrlQueries.invalid_expiration.
  destruct (ShortUrl.expirationDate url) as [date|];
    [destruct (decide (date = "")) as [->|Hne];
       [|destruct (Date_parse date) as [t|] eqn:Ht]|].
  all: rewrite ?bool_decide_eq_true, ?bool_decide_eq_false.
  all: repeat split; try done; try lia; intros.
  all: repeat match goal with
       | H : _ ∨ _ |- _ => destruct H
       | H : ∃ _, _ |- _ => destruct H as (? & ? & ? & ?)
       | H : _ ∧ _ |- _ => destruct H
       end; simplify_eq; try done; try lia.
  - exists date, t. repeat split; try done; lia.
  - right. exists date, t. repeat split; try done; lia.
  - left. by exists date.
Qed.

(** X6.  [getActiveUrls] and [getExpiredUrls] each read the clock.  At the
    readings [now1] and [now2], a record is in both lists exactly when it is
    in the collection and its date is valid, after [now1] and not after
    [now2]; a record of the collection is in neither list exactly when its
    date is present but not valid, or valid, after [now2] and not after
    [now1].  At one and the same reading the two lists never share a record,
    a record of the collection is in neither list exactly when its date is
    present but not valid, and the two lists together have as many records
    as the collection exactly when every date is valid. *)
Theorem active_and_expired_lists (now1 now2 : Z) (urls : list ShortUrl.t) :
  (∀ url, url ∈ getActiveUrls now1 urls ∧ url ∈ getExpiredUrls now2 urls ↔
     url ∈ urls ∧
     ∃ date t, ShortUrl.expirationDate url = Some date ∧ date ≠ "" ∧
               Date_parse date = Some t ∧ now1 < t ≤ now2) ∧
  (∀ url, url ∈ urls →
     ((¬ url ∈ getActiveUrls now1 urls ∧ ¬ url ∈ getExpiredUrls now2 urls) ↔
      (invalid_expiration url ∨
       ∃ date t, ShortUrl.expirationDate url = Some date ∧ date ≠ "" ∧
                 Date_parse date = Some t ∧ now2 < t ≤ now1))) ∧
  (∀ url, url ∈ getActiveUrls now1 urls → ¬ url ∈ getExpiredUrls now1 urls) ∧
  (∀ url, url ∈ urls →
     ((¬ url ∈ getActiveUrls now1 urls ∧ ¬ url ∈ getExpiredUrls now1 urls) ↔
      invalid_expiration url)) ∧
  ((length (getActiveUrls now1 urls) + length (getExpiredUrls now1 urls))%nat = length urls ↔
   Forall (fun url => ¬ invalid_expiration url) urls).
Proof.
  unfold UrlQueries.getActiveUrls, UrlQueries.getExpiredUrls.
  split; [|split; [|split; [|split]]].
  - intros url. rewrite !list_elem_of_filter.
    destruct (expiration_cases_two now1 now2 url) as [<- _].
    rewrite !Is_true_true. tauto.
  - intros url Hin. rewrite !list_elem_of_filter.
    destruct (expiration_cases_two now1 now2 url) as [_ <-].
    rewrite !Is_true_true.
    destruct (active_test now1 url), (expired_test now2 url); split; intros; try tauto;
      by intuition.
  - intros url [Ha _]%list_elem_of_filter [He _]%list_elem_of_filter.
    destruct (expiration_cases now1 url) as [(Ha'&He'&_)|[(Ha'&He'&_)|(Ha'&He'&_)]];
      rewrite ?Ha' in Ha; rewrite ?He' in He; done.
  - intros url Hin. rewrite !list_elem_of_filter.
    destruct (expiration_cases now1 url) as [(Ha&He&Hi)|[(Ha&He&Hi)|(Ha&He&Hi)]];
      rewrite Ha, He; simpl; tauto.
  - assert (∀ l : list ShortUrl.t,
              (length (filter (fun url => active_test now1 url) l) +
               length (filter (fun url => expired_test now1 url) l) ≤ length l)%nat) as Hle.
    { induction l as [|url l IH]; [done|]. rewrite !filter_cons.
      destruct (expiration_cases now1 url) as [(Ha&He&_)|[(Ha&He&_)|(Ha&He&_)]];
        rewrite Ha, He; simpl; lia. }
    induction urls as [|url urls IH]; [by split|].
    rewrite !filter_cons, Forall_cons. specialize (Hle urls).
    destruct (expiration_cases now1 url) as [(Ha&He&Hi)|[(Ha&He&Hi)|(Ha&He&Hi)]];
      rewrite Ha, He; simpl; rewrite <- IH; split; try tauto; try lia.
    all: intros; split; [done | lia].
Qed.

(** A record that expires between the two readings is in both lists when
    [getActiveUrls] reads the clock first, and in neither when it reads it
    last. *)
Example lists_at_two_readings :
  let parse := fun _ : string => Some 150 in
  let record := ShortUrl.mk 1 "https://example.org" "abc" (Some "2030-01-01") 0
                  Samples.alice "" "" None in
  UrlQueries.getActiveUrls parse 100 [record] = [record] ∧
  UrlQueries.getExpiredUrls parse 200 [record] = [record] ∧
  UrlQueries.getActiveUrls parse 200 [record] = [] ∧
  UrlQueries.getExpiredUrls parse 100 [record] = [].
Proof. by vm_compute. Qed.

(** X7.  The list component's [isExpired] and the hook's tests agree on a
    record, except at the two edges: a record that expires exactly now is
    expired for the hook but not for [isExpired], and a record with an
    invalid date counts as not expired for [isExpired] although the hook
    puts it in neither list. *)
Theorem isExpired_and_hook_tests (now : Z) (url : ShortUrl.t) :
  let e := ShortUrl.expirationDate url in
  (isExpired e now = true → expired_test now url = true) ∧
  (active_test now url = true → isExpired e now = false) ∧
  (expired_test now url = true ∧ isExpired e now = false ↔
   ∃ date, e = Some date ∧ date ≠ "" ∧ Date_parse date = Some now) ∧
  (active_test now url = false ∧ isExpired e now = false ∧ expired_test now url = false ↔
   invalid_expiration url).
Proof.
  cbn zeta.
  unfold UrlQueries.isExpired, UrlQueries.active_test, UrlQueries.expired_test,
    UrlQueries.invalid_expiration.
  destruct (ShortUrl.expirationDate url) as [date|];
    [destruct (decide (date = "")) as [->|Hne];
       [|destruct (Date_parse date) as [t|] eqn:Ht]|].
  all: rewrite ?bool_decide_eq_true, ?bool_decide_eq_false.
  all: repeat split; try done; try lia; intros.
  all: repeat match goal with
       | H : ∃ _, _ |- _ => destruct H as (? & ? & ? & ?)
       | H : _ ∧ _ |- _ => destruct H
       end; simplify_eq; try done; try lia.
  - exists date. repeat split; try done. rewrite Ht. f_equal. lia.
  - by exists date.
Qed.
End DatesFacts.

(** * Properties of the request gateway and of the hook for one record *)

Section GatewayFacts.
Local Open Scope eff_scope.

(** X8.  [handleResponse] gives the parsed body only for an ok response.
    For any other response it throws.  When the body of the error parses
    but has no [error] to read the message from, what is thrown is the
    TypeError of that access, which has no status.  Otherwise it is an
    [ApiError] whose message is never empty and whose status is 0 only if
    the HTTP status is 0: the envelope's message and status where they are
    truthy, the text "An error occurred" and the HTTP status where they are
    not; and when the body cannot be parsed, the message is "Network error
    occurred" and the status is the HTTP status. *)
Theorem handleResponse_outcome {T} (response : Response.t T) :
  if Response.ok response then
    Api.handleResponse response = Response.json_data response
  else
    match Response.json_error response with
    | Normal (Response.NoErrorField typeError) =>
        Api.handleResponse response = Throw {| message := typeError; status := None |}
    | parsed =>
        ∃ msg code,
          Api.handleResponse response = Throw (Api.ApiError msg code) ∧
          msg ≠ "" ∧
          (code = 0 → Response.status response = 0) ∧
          (∀ err_status err_message,
             parsed = Normal (Response.ErrorEnvelope err_status err_message) →
             msg = str_or (default "" err_message) "An error occurred" ∧
             code = Api.num_or (default 0 err_status) (Response.status response)) ∧
          (∀ e, parsed = Throw e →
             msg = "Network error occurred" ∧ code = Response.status response)
    end.
Proof.
  unfold Api.handleResponse.
  destruct (Response.ok response); [done|]. simpl.
  destruct (Response.json_error response) as [[s m|typeError]|e]; [|done|].
  - exists (str_or (default "" m) "An error occurred"),
           (Api.num_or (default 0 s) (Response.status response)).
    repeat split; try done.
    + unfold str_or. by case_decide.
    + unfold Api.num_or. by case_decide.
    + by simplify_eq.
    + by simplify_eq.
  - exists "Network error occurred", (Response.status response).
    unfold Api.num_or. repeat split; try done. by case_decide.
Qed.

(** The bodies [{}] and [{"error": {}}] of a response with status 500. *)
Example handleResponse_error_bodies :
  let missing := "Cannot read properties of undefined (reading 'message')" in
  Api.handleResponse
    (Response.mk false 500 (Normal (Response.NoErrorField missing)) (Normal tt)) =
    Throw {| message := missing; status := None |} ∧
  Api.handleResponse
    (Response.mk false 500 (Normal (Response.ErrorEnvelope None None)) (Normal tt)) =
    Throw (Api.ApiError "An error occurred" 500).
Proof. by split. Qed.

(** X9.  Without a stored user the gateway's [getUserUrls] rejects before
    any request is made, so [fetchUrls] shows "User not authenticated" as its
    error, keeps the collection and completes normally. *)
Theorem fetchUrls_without_stored_user (st : UseUrls.State)
    (user_id : string -> completion JsError Z) (localStorage : gmap string string)
    (fetched : Z -> completion JsError (Response.t (option (list ShortUrl.t)))) :
  localStorage !! "auth_user" = None →
  let call := Api.getUserUrls user_id localStorage fetched in
  UseUrls.urls (exec (UseUrls.fetchUrls call) st) = UseUrls.urls st ∧
  UseUrls.error (exec (UseUrls.fetchUrls call) st) = Some "User not authenticated" ∧
  UseUrls.isLoading (exec (UseUrls.fetchUrls call) st) = false ∧
  result (UseUrls.fetchUrls call) st = Normal tt.
Proof.
  intros Hnone. cbn zeta. unfold Api.getUserUrls, Api.getCurrentUserId.
  rewrite Hnone. done.
Qed.

Lemma fetchUrls_without_stored_user_witness :
  (∅ : gmap string string) !! "auth_user" = None ∧
  UseUrls.urls (exec (UseUrls.fetchUrls
                        (Api.getUserUrls (fun _ => Normal 1) ∅ (fun _ => Normal (Response.mk true 200 (Throw {| message := ""; status := None |}) (Normal (Some [])))))) (Samples.hook [Samples.url 1 3])) =
    [Samples.url 1 3].
Proof.
  split; [done|].
  apply (fetchUrls_without_stored_user (Samples.hook [Samples.url 1 3])
           (fun _ => Normal 1) ∅
           (fun _ => Normal (Response.mk true 200 (Throw {| message := ""; status := None |})
                                         (Normal (Some []))))).
  done.
Defined.

Import UseUrl.


(** X11.  [fetchUrl] never throws.  With an empty short code it changes
    nothing.  Otherwise it ends with [isLoading] false; a rejected request
    clears the record and sets [error] to the error's message (or the
    fallback text); a resolved one clears [error] and stores the first
    element of an array response (nothing for an empty array) or the single
    record. *)
Theorem fetchUrl_outcome (st : State) (shortCode : string) (err : JsError)
    (items : list ShortUrl.t) (item : option ShortUrl.t) :
  let failed := fetchUrl shortCode (Throw err) in
  let listed := fetchUrl shortCode (Normal (DataArray items)) in
  let single := fetchUrl shortCode (Normal (DataSingle item)) in
  result failed st = Normal tt ∧ result listed st = Normal tt ∧
  result single st = Normal tt ∧
  if decide (shortCode = "") then
    exec failed st = st ∧ exec listed st = st ∧ exec single st = st
  else
    exec failed st =
      mkState None false (Some (str_or (message err) "URL non trovato")) (console st) ∧
    exec listed st = mkState (head items) false None (console st) ∧
    exec single st = mkState item false None (console st).
Proof. cbn zeta. unfold fetchUrl. by case_decide. Qed.
End GatewayFacts.

(** * Properties of the credential store *)

Section AuthStoreFacts.
Import AuthStore.
Local Open Scope eff_scope.
Context {App : Type}.
Variable JSON_stringify : User.t -> string.
Variable JSON_parse : string -> option (option User.t).

Implicit Types (s : Store App) (l : Listener App) (u : Updates).

Local Abbreviation login := (login (App:=App) JSON_stringify).
Local Abbreviation register := (register (App:=App) JSON_stringify).
Local Abbreviation refreshUser := (refreshUser (App:=App) JSON_stringify).
Local Abbreviation new_manager := (new_manager (App:=App) JSON_parse).

Lemma call_listener_frame l s :
  ∃ a r, call_listener l s =
           (mkStore (authState s) (listeners s) (localStorage s) (hasWindow s) a, r) ∧
         ((∀ state a, (notify l state a).2 = None) → r = Normal tt).
Proof.
  unfold call_listener.
  destruct (notify l (authState s) (app s)) as [a [e|]] eqn:Hcall.
  - exists a, (Throw e). split; [done|]. intros Hl.
    specialize (Hl (authState s) (app s)). by rewrite Hcall in Hl.
  - by exists a, (Normal tt).
Qed.

(** Calling the listeners changes the application state only; it completes
    normally when no listener throws. *)
Lemma listeners_loop_frame (ls : list (Listener App)) s :
  ∃ a r, forEach ls call_listener s =
           (mkStore (authState s) (listeners s) (localStorage s) (hasWindow s) a, r) ∧
         (Forall (fun l => ∀ state a, (notify l state a).2 = None) ls → r = Normal tt).
Proof.
  revert s. induction ls as [|l ls IH]; intros s.
  - exists (app s), (Normal tt). split; [by destruct s | done].
  - simpl. unfold bind.
    destruct (call_listener_frame l s) as (a & r & -> & Hr).
    destruct r as [[]|e].
    + destruct (IH (mkStore (authState s) (listeners s) (localStorage s) (hasWindow s) a))
        as (a' & r' & -> & Hr').
      exists a', r'. split; [done|].
      intros Hq. apply Forall_cons in Hq as [_ Hq]. auto.
    + exists a, (Throw e). split; [done|].
      intros Hq. apply Forall_cons in Hq as [Hl _]. by specialize (Hr Hl).
Qed.

Lemma updateState_run u s :
  ∃ a r, updateState u s =
           (mkStore (merge (authState s) u) (listeners s) (localStorage s) (hasWindow s) a, r) ∧
         (quiet s → r = Normal tt).
Proof.
  unfold updateState, bind, set_authState, modify, notifyListeners, get. simpl.
  destruct (listeners_loop_frame (listeners s)
              (mkStore (merge (authState s) u) (listeners s) (localStorage s)
                       (hasWindow s) (app s))) as (a & r & Hrun & Hr).
  exists a, r. split; [exact Hrun | exact Hr].
Qed.

Lemma bind_run {S E A B} (m : eff S E A) (k : A -> eff S E B) (s s' : S) (a : A) :
  m s = (s', Normal a) → bind m k s = k a s'.
Proof. unfold bind. by intros ->. Qed.

Lemma clearAuth_run s :
  clearAuth s =
    (mkStore (authState s) (listeners s)
             (if hasWindow s then delete "auth_user" (delete "auth_token" (localStorage s))
              else localStorage s)
             (hasWindow s) (app s), Normal tt).
Proof. unfold clearAuth, bind, get. destruct s as [? ? ? [] ?]; reflexivity. Qed.

(** Replace the first call of [updateState] in the goal by its outcome. *)
Ltac run_updateState a r Hq :=
  match goal with
  | |- context [updateState ?u ?s0] =>
      let Hrun := fresh "Hrun" in
      destruct (updateState_run u s0) as (a & r & Hrun & Hq); rewrite Hrun; clear Hrun
  end.

(** X12.  [logout] always leaves the store logged out: user and token are
    null and both flags false, also when a listener throws.  In a browser
    both storage keys are removed, so later requests carry no
    [Authorization] header and a manager constructed afterwards is not
    authenticated.  The call completes normally when no listener throws. *)
Theorem logout_clears_session s (a0 : App) :
  let s' := exec logout s in
  authState s' = initial_state ∧
  listeners s' = listeners s ∧
  localStorage s' =
    (if hasWindow s then delete "auth_user" (delete "auth_token" (localStorage s))
     else localStorage s) ∧
  (hasWindow s = true →
     Api.getAuthHeaders (localStorage s') = [("Content-Type", "application/json")] ∧
     authState (new_manager (localStorage s') true a0) = initial_state) ∧
  (quiet s → result logout s = Normal tt).
Proof.
  cbn zeta. unfold exec, result, logout.
  rewrite (bind_run _ _ _ _ _ (clearAuth_run s)).
  run_updateState a r Hq. simpl.
  split; [done|]. split; [done|]. split; [done|]. split; [|exact Hq].
  intros ->. split.
  - unfold Api.getAuthHeaders. by rewrite lookup_delete_ne, lookup_delete_eq.
  - unfold AuthStore.new_manager, exec, initializeAuth, bind, get. simpl.
    by rewrite lookup_delete_ne, lookup_delete_eq.
Qed.

Lemma logout_run s :
  quiet s →
  ∃ a, logout s =
         (mkStore initial_state (listeners s)
                  (if hasWindow s then delete "auth_user" (delete "auth_token" (localStorage s))
                   else localStorage s)
                  (hasWindow s) a, Normal tt).
Proof.
  intros Hquiet. unfold logout.
  rewrite (bind_run _ _ _ _ _ (clearAuth_run s)).
  run_updateState a r Hq. rewrite (Hq Hquiet). by exists a.
Qed.

(** X13.  When the gateway rejects and no listener throws, [login] and
    [register] rethrow the error and leave user, token, the authenticated
    flag and the storage as they were; [isLoading] ends false. *)
Theorem login_rejected s (err : JsError) :
  quiet s →
  result (login (Throw err)) s = Throw err ∧
  result (register (Throw err)) s = Throw err ∧
  (∃ a, exec (login (Throw err)) s =
          mkStore (merge (authState s) (mkUpdates None None None (Some false)))
                  (listeners s) (localStorage s) (hasWindow s) a) ∧
  (∃ a, exec (register (Throw err)) s =
          mkStore (merge (authState s) (mkUpdates None None None (Some false)))
                  (listeners s) (localStorage s) (hasWindow s) a).
Proof.
  intros Hquiet.
  assert (∃ a, login (Throw err) s =
                 (mkStore (merge (authState s) (mkUpdates None None None (Some false)))
                          (listeners s) (localStorage s) (hasWindow s) a, Throw err)) as (a & Hrun).
  { unfold AuthStore.login, bind, try_catch, await, throw.
    run_updateState a1 r1 Hq1. rewrite (Hq1 Hquiet). simpl.
    run_updateState a2 r2 Hq2. rewrite (Hq2 Hquiet). simpl.
    by exists a2. }
  unfold result, exec.
  change (register (Throw err) s) with (login (Throw err) s).
  rewrite Hrun. simpl. repeat split; by try exists a.
Qed.
Lemma setItem_run (key value : string) s :
  hasWindow s = true →
  setItem key value s =
    (mkStore (authState s) (listeners s) (<[key := value]> (localStorage s))
             (hasWindow s) (app s), Normal tt).
Proof. destruct s as [? ? ? w ?]. simpl. by intros ->. Qed.

(** X14.  When the gateway resolves in a browser and no listener throws,
    [login] completes normally, stores user and token in the state with the
    authenticated flag set and [isLoading] false, and writes both storage
    keys.  If the token is not empty and [JSON.parse] gives back the user
    that [JSON.stringify] wrote, a manager constructed afterwards from the
    same storage starts with the same state, and requests carry the token
    as [Authorization] header. *)
Theorem login_then_restore s (response : AuthResponse) (a0 : App) :
  quiet s → hasWindow s = true →
  jwt response ≠ "" → JSON_stringify (user response) ≠ "" →
  JSON_parse (JSON_stringify (user response)) = Some (Some (user response)) →
  let s' := exec (login (Normal response)) s in
  result (login (Normal response)) s = Normal tt ∧
  authState s' = AuthState.mk (Some (user response)) (Some (jwt response)) true false ∧
  localStorage s' =
    <["auth_user" := JSON_stringify (user response)]>
      (<["auth_token" := jwt response]> (localStorage s)) ∧
  authState (new_manager (localStorage s') true a0) = authState s' ∧
  Api.getAuthHeaders (localStorage s') =
    [("Content-Type", "application/json");
     ("Authorization", String.append "Bearer " (jwt response))].
Proof.
  intros Hquiet Hw Hjwt Hstr Hparse. cbn zeta.
  assert (∃ a, login (Normal response) s =
                 (mkStore (AuthState.mk (Some (user response)) (Some (jwt response)) true false)
                          (listeners s)
                          (<["auth_user" := JSON_stringify (user response)]>
                             (<["auth_token" := jwt response]> (localStorage s)))
                          (hasWindow s) a, Normal tt)) as (a & Hrun).
  { unfold AuthStore.login. unfold bind at 1.
    run_updateState a1 r1 Hq1. rewrite (Hq1 Hquiet).
    unfold try_catch. unfold bind at 1. unfold await.
    do 2 match goal with
         | |- context [bind (setItem ?k ?v) ?f ?s0] =>
             rewrite (bind_run _ f _ _ _ (setItem_run k v s0 Hw))
         end.
    simpl.
    run_updateState a2 r2 Hq2. rewrite (Hq2 Hquiet). by exists a2. }
  unfold result, exec. rewrite Hrun. simpl.
  split; [done|]. split; [done|]. split; [done|]. split.
  - unfold AuthStore.new_manager, exec, initializeAuth, bind, get. simpl.
    rewrite lookup_insert_ne, lookup_insert_eq, lookup_insert_eq by done.
    rewrite decide_False by tauto. by rewrite Hparse.
  - unfold Api.getAuthHeaders.
    rewrite lookup_insert_ne, lookup_insert_eq by done. by rewrite decide_False.
Qed.

(** X15.  In a browser, a manager constructed from a storage that holds a
    token and a user entry, both not empty, whose user entry does not parse
    removes both storage keys and starts logged out.  One constructed from a
    storage in which the token or the user entry is missing or empty starts
    logged out and leaves the storage alone: the user entry is not parsed
    then, so an entry that does not parse stays where it is. *)
Theorem initializeAuth_bad_storage (storage : gmap string string) (a0 : App) :
  (∀ token userStr,
     storage !! "auth_token" = Some token → token ≠ "" →
     storage !! "auth_user" = Some userStr → userStr ≠ "" →
     JSON_parse userStr = None →
     authState (new_manager storage true a0) = initial_state ∧
     localStorage (new_manager storage true a0) =
       delete "auth_user" (delete "auth_token" storage)) ∧
  (storage !! "auth_token" = None ∨ storage !! "auth_token" = Some "" ∨
   storage !! "auth_user" = None ∨ storage !! "auth_user" = Some "" →
     authState (new_manager storage true a0) = initial_state ∧
     localStorage (new_manager storage true a0) = storage).
Proof.
  unfold AuthStore.new_manager, exec, initializeAuth.
  rewrite (bind_run get _ _ _ _ eq_refl). simpl.
  split.
  - intros token userStr -> Hne -> Hu Hparse.
    rewrite decide_False by tauto. rewrite Hparse.
    by rewrite clearAuth_run.
  - intros Hmissing.
    destruct (storage !! "auth_token") as [token|], (storage !! "auth_user") as [userStr|];
      try done.
    rewrite decide_True; [done|].
    destruct Hmissing as [?|[?|[?|?]]]; simplify_eq; auto.
Qed.

(** X16.  The listeners of the credential store form an array, not a set:
    subscribing a function twice registers it twice, and the function
    returned by [subscribe] removes every registration of that function
    (and no other listener), so after it the listeners are those from
    before the two subscriptions when the function was not among them. *)
Theorem unsubscribe_removes_all_registrations s l :
  let twice := exec (subscribe l ;; subscribe l) s in
  listeners twice = listeners s ++ [l; l] ∧
  listeners (exec (unsubscribe l) twice) =
    filter (fun x => lref x ≠ lref l) (listeners s) ∧
  (Forall (fun x => lref x ≠ lref l) (listeners s) →
     listeners (exec (unsubscribe l) twice) = listeners s).
Proof.
  cbn zeta. unfold exec, bind, subscribe, unsubscribe, set_listeners, modify. simpl.
  assert (filter (fun x => lref x ≠ lref l) ((listeners s ++ [l]) ++ [l]) =
          filter (fun x => lref x ≠ lref l) (listeners s)) as Hfilter.
  { rewrite !filter_app, !filter_cons, decide_False by tauto.
    by rewrite filter_nil, !app_nil_r. }
  split; [by rewrite <- app_assoc|]. rewrite Hfilter. clear Hfilter. split; [done|].
  intros Hall. induction Hall as [|x ls Hx _ IH]; [done|].
  rewrite filter_cons, decide_True by done. by rewrite IH.
Qed.

(** X17.  [refreshUser] does nothing when the store is not authenticated,
    whatever the gateway would answer.  When it is authenticated, the
    gateway rejects and no listener throws, the store is logged out, both
    storage keys are removed (in a browser) and the error is rethrown. *)
Theorem refreshUser_outcome s (getMe : completion JsError User.t) (err : JsError) :
  quiet s →
  if AuthState.isAuthenticated (authState s) then
    result (refreshUser (Throw err)) s = Throw err ∧
    authState (exec (refreshUser (Throw err)) s) = initial_state ∧
    localStorage (exec (refreshUser (Throw err)) s) =
      (if hasWindow s then delete "auth_user" (delete "auth_token" (localStorage s))
       else localStorage s)
  else
    exec (refreshUser getMe) s = s ∧ result (refreshUser getMe) s = Normal tt.
Proof.
  intros Hquiet. unfold exec, result, AuthStore.refreshUser.
  rewrite !(bind_run get _ _ _ _ eq_refl).
  destruct (AuthState.isAuthenticated (authState s)); simpl; [|done].
  unfold try_catch, await. unfold bind at 1. simpl.
  destruct (logout_run s Hquiet) as (a & Hlog).
  rewrite !(bind_run _ _ _ _ _ Hlog). done.
Qed.
End AuthStoreFacts.

Lemma login_rejected_witness :
  AuthStore.quiet MoreSamples.store0 ∧
  result (AuthStore.login MoreSamples.stringify (Throw MoreSamples.rejected)) MoreSamples.store0 =
    Throw MoreSamples.rejected.
Proof.
  assert (Hq : AuthStore.quiet MoreSamples.store0).
  { constructor; [intros; reflexivity | constructor]. }
  split; [exact Hq|].
  apply (login_rejected MoreSamples.stringify MoreSamples.store0 MoreSamples.rejected Hq).
Defined.

Lemma login_then_restore_witness :
  AuthStore.quiet MoreSamples.store0 ∧
  AuthStore.hasWindow MoreSamples.store0 = true ∧
  AuthStore.jwt MoreSamples.response0 ≠ "" ∧
  MoreSamples.stringify (AuthStore.user MoreSamples.response0) ≠ "" ∧
  MoreSamples.parse (MoreSamples.stringify (AuthStore.user MoreSamples.response0)) =
    Some (Some (AuthStore.user MoreSamples.response0)) ∧
  AuthStore.authState
    (AuthStore.new_manager MoreSamples.parse
       (AuthStore.localStorage
          (exec (AuthStore.login MoreSamples.stringify (Normal MoreSamples.response0))
                MoreSamples.store0)) true 0%nat) =
  AuthStore.authState
    (exec (AuthStore.login MoreSamples.stringify (Normal MoreSamples.response0))
          MoreSamples.store0).
Proof.
  assert (Hq : AuthStore.quiet MoreSamples.store0).
  { constructor; [intros; reflexivity | constructor]. }
  split; [exact Hq|]. split; [reflexivity|]. split; [discriminate|].
  split; [discriminate|]. split; [reflexivity|].
  apply (login_then_restore MoreSamples.stringify MoreSamples.parse MoreSamples.store0
           MoreSamples.response0 0%nat Hq); try reflexivity; discriminate.
Defined.

Lemma initializeAuth_bad_storage_witness :
  let storage : gmap string string :=
    <["auth_user" := "{broken"]> (<["auth_token" := Samples.jwt]> ∅) in
  let no_token : gmap string string := <["auth_user" := "{broken"]> ∅ in
  storage !! "auth_token" = Some Samples.jwt ∧ Samples.jwt ≠ "" ∧
  storage !! "auth_user" = Some "{broken" ∧ "{broken" ≠ "" ∧
  MoreSamples.parse "{broken" = None ∧
  AuthStore.authState (AuthStore.new_manager MoreSamples.parse storage true 0%nat) =
    AuthStore.initial_state ∧
  AuthStore.localStorage (AuthStore.new_manager MoreSamples.parse storage true 0%nat) =
    delete "auth_user" (delete "auth_token" storage) ∧
  no_token !! "auth_token" = None ∧
  AuthStore.localStorage (AuthStore.new_manager MoreSamples.parse no_token true 0%nat) =
    no_token.
Proof.
  cbn zeta.
  assert (H1 : (<["auth_user" := "{broken"]> (<["auth_token" := Samples.jwt]> ∅)
                : gmap string string) !! "auth_token" = Some Samples.jwt) by reflexivity.
  assert (H2 : Samples.jwt ≠ "") by discriminate.
  assert (H3 : (<["auth_user" := "{broken"]> (<["auth_token" := Samples.jwt]> ∅)
                : gmap string string) !! "auth_user" = Some "{broken") by reflexivity.
  assert (H4 : "{broken" ≠ "") by discriminate.
  assert (H5 : MoreSamples.parse "{broken" = None) by reflexivity.
  assert (H6 : (<["auth_user" := "{broken"]> ∅ : gmap string string) !! "auth_token" = None)
    by reflexivity.
  split; [exact H1|]. split; [exact H2|]. split; [exact H3|].
  split; [exact H4|]. split; [exact H5|].
  split; [|split; [|split; [exact H6|]]].
  - exact (proj1 (proj1 (initializeAuth_bad_storage MoreSamples.parse _ 0%nat)
                    Samples.jwt "{broken" H1 H2 H3 H4 H5)).
  - exact (proj2 (proj1 (initializeAuth_bad_storage MoreSamples.parse _ 0%nat)
                    Samples.jwt "{broken" H1 H2 H3 H4 H5)).
  - exact (proj2 (proj2 (initializeAuth_bad_storage MoreSamples.parse _ 0%nat)
                    (or_introl H6))).
Defined.

Lemma refreshUser_outcome_witness :
  AuthStore.quiet MoreSamples.store0 ∧
  exec (AuthStore.refreshUser MoreSamples.stringify (Normal Samples.alice)) MoreSamples.store0 =
    MoreSamples.store0.
Proof.
  assert (Hq : AuthStore.quiet MoreSamples.store0).
  { constructor; [intros; reflexivity | constructor]. }
  split; [exact Hq|].
  apply (refreshUser_outcome MoreSamples.stringify MoreSamples.store0
           (Normal Samples.alice) MoreSamples.rejected Hq).
Defined.

Section TokenEdges.
Import Auth.
Variable atob : string -> option string.
Variable JSON_parse : string -> option Json.
Variable ToNumber_other : Json -> option Z.

Local Abbreviation isTokenExpired := (isTokenExpired atob JSON_parse ToNumber_other).
Local Abbreviation isAuthenticated := (isAuthenticated atob JSON_parse ToNumber_other).

(** X18.  A stored token whose payload decodes to an object without an
    [exp] claim never counts as expired: [undefined * 1000] is NaN and the
    comparison with it is false, so [isAuthenticated()] is the
    authenticated flag at every time. *)
Theorem token_without_exp_never_expires (st : AuthState.t) token text fields :
  AuthState.token st = Some token → token ≠ "" →
  atob (second_piece (split_dot token)) = Some text →
  JSON_parse text = Some (JObject fields) →
  fields !! "exp" = None →
  ∀ now, isTokenExpired now st = false ∧
         isAuthenticated now st = AuthState.isAuthenticated st.
Proof.
  intros Htok Hne Hatob Hparse Hexp now.
  unfold Auth.isAuthenticated, Auth.isTokenExpired.
  rewrite Htok, decide_False by done.
  rewrite Hatob. simpl. rewrite Hparse. simpl. rewrite Hexp. simpl.
  split; [done | apply andb_true_r].
Qed.

(** X19.  Without a usable token [isAuthenticated()] is false at every time,
    whatever the authenticated flag: when no token or an empty token is
    stored, when [atob] or [JSON.parse] throws on the payload piece, and
    when the payload is [null]. *)
Theorem unusable_token_is_expired (st : AuthState.t) :
  (AuthState.token st = None ∨ AuthState.token st = Some "" ∨
   ∃ token, AuthState.token st = Some token ∧
     (atob (second_piece (split_dot token)) = None ∨
      ∃ text, atob (second_piece (split_dot token)) = Some text ∧
              (JSON_parse text = None ∨ JSON_parse text = Some JNull))) →
  ∀ now, isTokenExpired now st = true ∧ isAuthenticated now st = false.
Proof.
  intros Hcase now.
  assert (isTokenExpired now st = true) as Hexpired.
  { unfold Auth.isTokenExpired.
    destruct Hcase as [->|[->|(token & -> & Hdecode)]]; [done|done|].
    case_decide; [done|].
    destruct Hdecode as [->|(text & -> & [Hp|Hp])]; [done| |]; simpl; by rewrite Hp. }
  split; [exact Hexpired|].
  unfold Auth.isAuthenticated. rewrite Hexpired. apply andb_false_r.
Qed.
End TokenEdges.

Lemma token_without_exp_never_expires_witness :
  let atob := fun s : string => if decide (s = "e30") then Some "{}" else None in
  let parse := fun s : string => if decide (s = "{}") then Some (JObject ∅) else None in
  let st := AuthState.mk None (Some "eyJhbGciOiJIUzI1NiJ9.e30.c2ln") true false in
  AuthState.token st = Some "eyJhbGciOiJIUzI1NiJ9.e30.c2ln" ∧
  atob (Auth.second_piece (Auth.split_dot "eyJhbGciOiJIUzI1NiJ9.e30.c2ln")) = Some "{}" ∧
  parse "{}" = Some (JObject ∅) ∧
  Auth.isAuthenticated atob parse Samples.sample_ToNumber_other 4102444800000 st = true.
Proof.
  cbn zeta.
  split; [reflexivity|]. split; [reflexivity|]. split; [reflexivity|].
  apply (token_without_exp_never_expires
           (fun s : string => if decide (s = "e30") then Some "{}" else None)
           (fun s : string => if decide (s = "{}") then Some (JObject ∅) else None)
           Samples.sample_ToNumber_other
           (AuthState.mk None (Some "eyJhbGciOiJIUzI1NiJ9.e30.c2ln") true false)
           "eyJhbGciOiJIUzI1NiJ9.e30.c2ln" "{}" ∅);
    try reflexivity; discriminate.
Defined.

Lemma unusable_token_is_expired_witness :
  AuthState.token (AuthState.mk (Some Samples.alice) None true false) = None ∧
  Auth.isAuthenticated Samples.sample_atob Samples.sample_JSON_parse
    Samples.sample_ToNumber_other 0 (AuthState.mk (Some Samples.alice) None true false) = false.
Proof.
  split; [reflexivity|].
  apply (unusable_token_is_expired Samples.sample_atob Samples.sample_JSON_parse
           Samples.sample_ToNumber_other
           (AuthState.mk (Some Samples.alice) None true false)
           (or_introl eq_refl) 0).
Defined.

(** * Further properties of the push channel manager *)

Section SocketMore.
Import Socket SocketOps.
Local Open Scope eff_scope.
Context {Data App : Type}.

Implicit Types (w : World Data App) (m : Manager Data App) (data : Payload Data)
  (event : string) (callback : Callback Data App).

Lemma run_eq {S E A} (f : eff S E A) (s : S) : f s = (exec f s, result f s).
Proof. unfold exec, result. by destruct (f s). Qed.

Lemma connect_run w :
  connect w =
    (if socket_connected (mgr w) then w
     else match authToken w with
          | Some token =>
              if decide (token = "")
              then mkWorld (mgr w) (app w) (authToken w) (next_sid w)
                           (trace w ++ [Console LogNoToken])
              else mkWorld (set_socket (Some (mkHandle (next_sid w) false)) (mgr w))
                           (app w) (authToken w) (S (next_sid w))
                           (trace w ++ [IoOpen (next_sid w) token])
          | None => mkWorld (mgr w) (app w) (authToken w) (next_sid w)
                            (trace w ++ [Console LogNoToken])
          end,
     Normal tt).
Proof.
  unfold connect. rewrite (bind_run get _ _ _ _ eq_refl).
  destruct w as [m a [token|] n t]; simpl.
  - destruct (socket_connected m); [done|]. by case_decide.
  - by destruct (socket_connected m).
Qed.

(** X20.  [connect()] never throws and changes neither the listeners, the
    counters nor [isConnected].  It opens a socket exactly when the held
    socket is not connected and the session has a non-empty token, and then
    the socket carries that token; with a connected socket it does nothing
    at all; without a token it keeps the socket it has and logs a warning. *)
Theorem connect_outcome w :
  let w' := exec connect w in
  let usable := match authToken w with
                | Some token => bool_decide (token ≠ "")
                | None => false
                end in
  result connect w = Normal tt ∧
  set_socket (socket (mgr w)) (mgr w') = mgr w ∧
  opened (trace w') =
    opened (trace w) ++
    (if negb (socket_connected (mgr w)) && usable
     then [(next_sid w, default "" (authToken w))] else []) ∧
  (socket_connected (mgr w) = true → w' = w) ∧
  (socket_connected (mgr w) = false → usable = false →
     socket (mgr w') = socket (mgr w) ∧ trace w' = trace w ++ [Console LogNoToken]) ∧
  (socket_connected (mgr w) = false → usable = true →
     socket (mgr w') = Some (mkHandle (next_sid w) false)).
Proof.
  cbn zeta. unfold result, exec. rewrite connect_run. simpl.
  split; [done|].
  destruct (socket_connected (mgr w)) eqn:Hc; simpl.
  - rewrite app_nil_r. repeat split; try done. by destruct (mgr w).
  - destruct (authToken w) as [token|]; simpl.
    + destruct (decide (token = "")) as [->|Hne]; simpl.
      * rewrite app_nil_r. unfold opened. rewrite omap_app, app_nil_r.
        repeat split; try done. by destruct (mgr w).
      * rewrite bool_decide_true by done. unfold opened. rewrite omap_app.
        repeat split; try done. by destruct (mgr w).
    + unfold opened. rewrite omap_app, !app_nil_r.
      repeat split; try done. by destruct (mgr w).
Qed.

(** X21.  A second [connect()] while the first connection is still pending
    opens a second socket with the next identity and replaces the held
    socket by it; the first socket is not disconnected. *)
Theorem connect_twice_while_pending w (token : string) :
  socket_connected (mgr w) = false → authToken w = Some token → token ≠ "" →
  let w' := exec (connect ;; connect) w in
  ∃ t, trace w' = trace w ++ t ∧
       opened t = [(next_sid w, token); (S (next_sid w), token)] ∧
       closed t = [] ∧
       socket (mgr w') = Some (mkHandle (S (next_sid w)) false).
Proof.
  intros Hc Htok Hne. cbn zeta. unfold exec.
  rewrite (bind_run connect _ w _ tt (connect_run w)).
  rewrite connect_run, Hc, Htok, decide_False by done. simpl.
  rewrite decide_False by done. simpl.
  exists [IoOpen (next_sid w) token; IoOpen (S (next_sid w)) token].
  by rewrite <- app_assoc.
Qed.
Lemma filter_other_refs callback (ls : list (Callback Data App)) :
  ref callback ∉ ref <$> ls → filter (fun c => ref c ≠ ref callback) ls = ls.
Proof.
  induction ls as [|c ls IH]; [done|]. rewrite fmap_cons, not_elem_of_cons.
  intros [Hne Hnot]. rewrite filter_cons, decide_True by done. by rewrite IH.
Qed.

(** The listeners of an event after [on] and after the function it returns. *)
Lemma listeners_on w event callback :
  listeners (mgr (exec (on event callback) w)) =
    let old := default [] (listeners (mgr w) !! event) in
    <[event := if decide (ref callback ∈ ref <$> old) then old else old ++ [callback]]>
      (listeners (mgr w)).
Proof.
  unfold exec, on, set_mgr, modify. simpl. by case_decide.
Qed.

Lemma listeners_unsubscribe w event callback :
  listeners (mgr (exec (unsubscribe event callback) w)) =
    match listeners (mgr w) !! event with
    | Some old =>
        if decide (filter (fun c => ref c ≠ ref callback) old = [])
        then delete event (listeners (mgr w))
        else <[event := filter (fun c => ref c ≠ ref callback) old]> (listeners (mgr w))
    | None => listeners (mgr w)
    end.
Proof.
  unfold exec, unsubscribe, set_mgr, modify. simpl.
  destruct (listeners (mgr w) !! event); [by case_decide | done].
Qed.

(** X22.  Subscriptions of the channel manager form a set per event:
    subscribing a function a second time changes nothing; a new function is
    added after the ones registered; the function returned by [on] removes
    that function and no other; the listeners of other events are never
    touched; after the removal [emit] calls the remaining listeners in their
    order and not the removed one; and removing a function right after
    adding it gives back the listener map from before. *)
Theorem on_and_unsubscribe w event callback data :
  let old := default [] (listeners (mgr w) !! event) in
  let subscribed := exec (on event callback) w in
  let removed := exec (unsubscribe event callback) w in
  exec (on event callback ;; on event callback) w = subscribed ∧
  default [] (listeners (mgr subscribed) !! event) =
    (if decide (ref callback ∈ ref <$> old) then old else old ++ [callback]) ∧
  default [] (listeners (mgr removed) !! event) =
    filter (fun c => ref c ≠ ref callback) old ∧
  (∀ other, other ≠ event →
     listeners (mgr subscribed) !! other = listeners (mgr w) !! other ∧
     listeners (mgr removed) !! other = listeners (mgr w) !! other) ∧
  (∃ t, trace (exec (emit event data) removed) = trace removed ++ Dispatched event data :: t ∧
        invoked_refs event t = ref <$> filter (fun c => ref c ≠ ref callback) old ∧
        ref callback ∉ invoked_refs event t) ∧
  (ref callback ∉ ref <$> old → listeners (mgr w) !! event ≠ Some [] →
     listeners (mgr (exec (on event callback ;; unsubscribe event callback) w)) =
       listeners (mgr w)).
Proof.
  cbn zeta.
  assert (default [] (listeners (mgr (exec (unsubscribe event callback) w)) !! event) =
          filter (fun c => ref c ≠ ref callback) (default [] (listeners (mgr w) !! event)))
    as Hremoved.
  { rewrite listeners_unsubscribe.
    destruct (listeners (mgr w) !! event) as [old|] eqn:Hold; simpl; [|by rewrite Hold].
    case_decide as Hempty.
    - by rewrite lookup_delete_eq, Hempty.
    - by rewrite lookup_insert_eq. }
  split; [|split; [|split; [exact Hremoved|split; [|split]]]].
  - rewrite (exec_seq _ _ _ tt) by reflexivity.
    destruct (exec (on event callback) w) as [m1 a1 tok1 n1 t1] eqn:Hw1.
    assert (listeners m1 !! event =
            Some (if decide (ref callback ∈ ref <$> default [] (listeners (mgr w) !! event))
                  then default [] (listeners (mgr w) !! event)
                  else default [] (listeners (mgr w) !! event) ++ [callback])) as Hl1.
    { change m1 with (mgr (mkWorld m1 a1 tok1 n1 t1)). rewrite <- Hw1, listeners_on.
      cbn zeta. by rewrite lookup_insert_eq. }
    unfold exec, on, set_mgr, modify. simpl. rewrite Hl1. simpl.
    rewrite decide_True.
    + f_equal. destruct m1 as [? ? ? ? ? ls]. unfold set_listeners. simpl in *.
      f_equal. by apply insert_id.
    + case_decide; [done|]. rewrite fmap_app. set_solver.
  - rewrite listeners_on. cbn zeta. by rewrite lookup_insert_eq.
  - intros other Hother. rewrite listeners_on, listeners_unsubscribe. cbn zeta.
    rewrite lookup_insert_ne by done. split; [done|].
    destruct (listeners (mgr w) !! event); [|done].
    case_decide; [by rewrite lookup_delete_ne | by rewrite lookup_insert_ne].
  - destruct (emit_spec event data (exec (unsubscribe event callback) w))
      as (a & t & Hemit & Hinv & _).
    exists t. unfold exec at 1. rewrite Hemit. simpl. split; [done|].
    rewrite Hinv, Hremoved. split; [done|].
    rewrite list_elem_of_fmap. intros (c & Href & Hin).
    apply list_elem_of_filter in Hin as [Hne _]. congruence.
  - intros Hnew Hnonempty.
    rewrite (exec_seq _ _ _ tt) by reflexivity.
    rewrite listeners_unsubscribe, listeners_on. cbn zeta.
    rewrite lookup_insert_eq, !(decide_False _ _ Hnew).
    rewrite filter_app, filter_other_refs by done.
    rewrite filter_cons.
    destruct (decide (ref callback ≠ ref callback)) as [Hc|_]; [done|].
    rewrite filter_nil, app_nil_r.
    destruct (listeners (mgr w) !! event) as [old|] eqn:Hold; simpl.
    + rewrite decide_False by congruence.
      rewrite insert_insert_eq. by apply insert_id.
    + by rewrite delete_insert_eq, delete_id.
Qed.
(** What the listeners write to the trace stays inside the manager. *)
Lemma internal_trace (t : list (Effect Data)) :
  Forall (fun e => internal e = true) t →
  opened t = [] ∧ closed t = [] ∧ sent t = [] ∧ timeouts t = [].
Proof.
  induction 1 as [|e t He _ (Ho & Hc & Hs & Ht)]; [done|].
  unfold opened, closed, sent, timeouts in *.
  destruct e; simpl in He; try discriminate; simpl; repeat split; assumption.
Qed.

Lemma guarded_call_internal event data callback w :
  ∃ a t, guarded_call event data callback w =
           (mkWorld (mgr w) a (authToken w) (next_sid w) (trace w ++ t), Normal tt) ∧
         Forall (fun e => internal e = true) t.
Proof.
  unfold guarded_call, try_catch, invoke.
  destruct (call callback data (app w)) as [a [e|]].
  - exists a, [Invoked (ref callback) event data; Console (LogListenerError event e)].
    split; [unfold effect, modify; simpl; by rewrite <- app_assoc|].
    by repeat constructor.
  - exists a, [Invoked (ref callback) event data]. split; [done|]. by repeat constructor.
Qed.

Lemma emit_internal event data w :
  ∃ a t, emit event data w =
           (mkWorld (mgr w) a (authToken w) (next_sid w) (trace w ++ t), Normal tt) ∧
         Forall (fun e => internal e = true) t.
Proof.
  rewrite emit_unfold. cbn zeta.
  destruct (listeners (mgr w) !! event) as [cbs|].
  - assert (∀ w0 : World Data App,
              ∃ a t, forEach cbs (guarded_call event data) w0 =
                       (mkWorld (mgr w0) a (authToken w0) (next_sid w0) (trace w0 ++ t),
                        Normal tt) ∧
                     Forall (fun e => internal e = true) t) as Hloop.
    { induction cbs as [|cb cbs IH]; intros w0.
      - exists (app w0), []. split; [|done].
        simpl. unfold ret. rewrite app_nil_r. by destruct w0.
      - destruct (guarded_call_internal event data cb w0) as (a1 & t1 & Hstep & Ht1).
        simpl. unfold bind. rewrite Hstep.
        destruct (IH (mkWorld (mgr w0) a1 (authToken w0) (next_sid w0) (trace w0 ++ t1)))
          as (a2 & t2 & Hrest & Ht2).
        rewrite Hrest. simpl. exists a2, (t1 ++ t2).
        split; [by rewrite app_assoc | by apply Forall_app]. }
    destruct (Hloop (mkWorld (mgr w) (app w) (authToken w) (next_sid w)
                             (trace w ++ [Dispatched event data])))
      as (a & t & Hrun & Ht).
    rewrite Hrun. simpl. exists a, (Dispatched event data :: t).
    split; [by rewrite <- app_assoc | by constructor].
  - exists (app w), [Dispatched event data]. split; [done | by repeat constructor].
Qed.
Lemma onConnect_run w :
  ∃ a t, onConnect w =
           (mkWorld (set_reconnectAttempts 0
                       (set_isConnected true (io_sets_connected true (mgr w))))
                    a (authToken w) (next_sid w) (trace w ++ t), Normal tt) ∧
         Forall (fun e => internal e = true) t.
Proof.
  unfold onConnect, bind, set_mgr, effect, modify, get. simpl.
  match goal with |- context [emit ?e ?d ?w0] =>
    destruct (emit_internal e d w0) as (a & t & Hemit & Ht); rewrite Hemit end.
  simpl. eexists a, (_ :: t). split; [by rewrite <- app_assoc | by constructor].
Qed.

(** The handlers of ['disconnect'] and ['connect_error'] up to their last
    statement. *)
Lemma onDisconnect_run reason w :
  ∃ a t, onDisconnect reason w =
           (if decide (reason = "io server disconnect") then handleReconnect else ret tt)
             (mkWorld (set_isConnected false (io_sets_connected false (mgr w)))
                      a (authToken w) (next_sid w) (trace w ++ t)) ∧
         Forall (fun e => internal e = true) t.
Proof.
  unfold onDisconnect, bind, set_mgr, effect, modify. simpl.
  match goal with |- context [emit ?e ?d ?w0] =>
    destruct (emit_internal e d w0) as (a & t & Hemit & Ht); rewrite Hemit end.
  simpl. eexists a, (_ :: t). split; [by rewrite <- app_assoc | by constructor].
Qed.

Lemma onConnectError_run msg w :
  ∃ a t, onConnectError msg w =
           handleReconnect
             (mkWorld (set_isConnected false (io_sets_connected false (mgr w)))
                      a (authToken w) (next_sid w) (trace w ++ t)) ∧
         Forall (fun e => internal e = true) t.
Proof.
  unfold onConnectError, bind, set_mgr, effect, modify. simpl.
  match goal with |- context [emit ?e ?d ?w0] =>
    destruct (emit_internal e d w0) as (a & t & Hemit & Ht); rewrite Hemit end.
  simpl. eexists a, (_ :: t). split; [by rewrite <- app_assoc | by constructor].
Qed.

Lemma handleReconnect_run w :
  ∃ a t, handleReconnect w =
           (mkWorld (if decide (reconnectAttempts (mgr w) < maxReconnectAttempts (mgr w))
                     then set_reconnectAttempts (reconnectAttempts (mgr w) + 1) (mgr w)
                     else mgr w)
                    a (authToken w) (next_sid w) (trace w ++ t), Normal tt) ∧
         opened t = [] ∧ closed t = [] ∧ sent t = [] ∧
         timeouts t =
           (if decide (reconnectAttempts (mgr w) < maxReconnectAttempts (mgr w))
            then [reconnectDelay (mgr w) * 2 ^ reconnectAttempts (mgr w)] else []).
Proof.
  case_decide as Hlt.
  - rewrite handleReconnect_below by done. cbn zeta.
    eexists (app w), _. split; [reflexivity|].
    replace (reconnectAttempts (mgr w) + 1 - 1) with (reconnectAttempts (mgr w)) by lia.
    done.
  - rewrite handleReconnect_at_cap by lia.
    match goal with |- context [emit ?e ?d ?w0] =>
      destruct (emit_internal e d w0) as (a & t & Hemit & Ht); rewrite Hemit end.
    simpl. exists a, (Console LogMaxReconnect :: t).
    split; [by rewrite <- app_assoc|].
    apply (internal_trace (Console LogMaxReconnect :: t)). by constructor.
Qed.

Lemma disconnect_run w :
  ∃ a t, disconnect w =
           (match socket (mgr w) with
            | Some s =>
                mkWorld (set_listeners ∅ (set_isConnected false (set_socket None (mgr w))))
                        a (authToken w) (next_sid w) (trace w ++ IoDisconnect (sid s) :: t)
            | None => w
            end, Normal tt) ∧
         Forall (fun e => internal e = true) t.
Proof.
  unfold disconnect. rewrite (bind_run get _ _ _ _ eq_refl).
  destruct (socket (mgr w)) as [s|] eqn:Hs; [|by exists (app w), []].
  unfold bind at 1. unfold effect at 1, modify. simpl.
  destruct (connected s).
  - unfold bind at 1.
    match goal with |- context [onDisconnect ?r ?w0] =>
      destruct (onDisconnect_run r w0) as (a & t & Hd & Ht); rewrite Hd end.
    rewrite decide_False by done. unfold ret, bind, set_mgr, modify. simpl.
    exists a, t. split; [|done].
    unfold io_sets_connected. simpl. rewrite Hs. simpl.
    by rewrite <- app_assoc.
  - unfold ret, bind, set_mgr, modify. simpl. by exists (app w), [].
Qed.

Lemma sendEvent_run event data w :
  sendEvent event data w =
    (mkWorld (mgr w) (app w) (authToken w) (next_sid w)
             (trace w ++ [match socket (mgr w) with
                          | Some s => if connected s then IoSend (sid s) event data
                                      else Console (LogNotConnected event)
                          | None => Console (LogNotConnected event)
                          end]), Normal tt).
Proof.
  unfold sendEvent. rewrite (bind_run get _ _ _ _ eq_refl).
  destruct (socket (mgr w)) as [[i []]|]; reflexivity.
Qed.
Lemma stays_safe_intro w m (a : App) tok n (t : list (Effect Data)) :
  attempts_in_range m →
  maxReconnectAttempts m = maxReconnectAttempts (mgr w) →
  reconnectDelay m = reconnectDelay (mgr w) →
  Forall (backoff_delay (mgr w)) (timeouts t) →
  stays_safe w (mkWorld m a tok n (trace w ++ t), Normal tt).
Proof.
  intros. unfold stays_safe. simpl.
  split; [done|]. split; [done|]. split; [done|]. split; [done|]. by exists t.
Qed.

Lemma stays_safe_trans w w1 out :
  stays_safe w (w1, Normal tt) → stays_safe w1 out → stays_safe w out.
Proof.
  intros (_ & _ & Hmax1 & Hdelay1 & t1 & Ht1 & Hb1) (Hr & Hrange & Hmax & Hdelay & t2 & Ht2 & Hb2).
  simpl in *. unfold stays_safe. simpl.
  split; [done|]. split; [done|]. split; [congruence|]. split; [congruence|].
  exists (t1 ++ t2). split; [by rewrite Ht2, Ht1, app_assoc|].
  rewrite timeouts_app. apply Forall_app. split; [done|].
  eapply Forall_impl; [exact Hb2|]. unfold backoff_delay. intros d.
  by rewrite Hmax1, Hdelay1.
Qed.

Lemma stays_ready w w1 : ready w → stays_safe w (w1, Normal tt) → ready w1.
Proof.
  intros [_ Hdelay] (_ & Hrange & _ & Hd & _). simpl in *. split; [done|]. by rewrite Hd.
Qed.

Lemma handleReconnect_safe w : ready w → stays_safe w (handleReconnect w).
Proof.
  intros [[Hlo Hhi] Hdelay].
  destruct (handleReconnect_run w) as (a & t & -> & _ & _ & _ & Htime).
  apply stays_safe_intro; rewrite ?Htime; case_decide; simpl;
    try done; try (unfold attempts_in_range; simpl; lia).
  constructor; [|done]. unfold backoff_delay.
  assert (1 ≤ 2 ^ reconnectAttempts (mgr w)) by (apply Z.pow_le_mono_r with (b := 0); lia).
  assert (2 ^ reconnectAttempts (mgr w) ≤ 2 ^ (maxReconnectAttempts (mgr w) - 1))
    by (apply Z.pow_le_mono_r; lia).
  nia.
Qed.

Lemma internal_safe w m (a : App) tok n (t : list (Effect Data)) :
  attempts_in_range m →
  maxReconnectAttempts m = maxReconnectAttempts (mgr w) →
  reconnectDelay m = reconnectDelay (mgr w) →
  Forall (fun e => internal e = true) t →
  stays_safe w (mkWorld m a tok n (trace w ++ t), Normal tt).
Proof.
  intros ? ? ? Ht. apply stays_safe_intro; try done.
  by destruct (internal_trace t Ht) as (_ & _ & _ & ->).
Qed.

Lemma io_sets_connected_fields b m :
  reconnectAttempts (io_sets_connected b m) = reconnectAttempts m ∧
  maxReconnectAttempts (io_sets_connected b m) = maxReconnectAttempts m ∧
  reconnectDelay (io_sets_connected b m) = reconnectDelay m ∧
  isConnected (io_sets_connected b m) = isConnected m ∧
  listeners (io_sets_connected b m) = listeners m.
Proof. unfold io_sets_connected. by destruct (socket m). Qed.

Lemma stays_safe_same w : ready w → stays_safe w (w, Normal tt).
Proof.
  intros [Hrange _]. unfold stays_safe. simpl.
  split; [done|]. split; [done|]. split; [done|]. split; [done|].
  exists []. by rewrite app_nil_r.
Qed.

Lemma stays_safe_fields w m (a : App) tok n :
  attempts_in_range m →
  maxReconnectAttempts m = maxReconnectAttempts (mgr w) →
  reconnectDelay m = reconnectDelay (mgr w) →
  stays_safe w (mkWorld m a tok n (trace w), Normal tt).
Proof.
  intros. unfold stays_safe. simpl.
  split; [done|]. split; [done|]. split; [done|]. split; [done|].
  exists []. by rewrite app_nil_r.
Qed.

Lemma connect_safe w : ready w → stays_safe w (connect w).
Proof.
  intros Hready. pose proof Hready as [Hrange _]. rewrite connect_run.
  destruct (socket_connected (mgr w)); [by apply stays_safe_same|].
  destruct (authToken w) as [token|]; [case_decide|]; by apply stays_safe_intro.
Qed.

Lemma step_safe (action : Action Data App) w : ready w → stays_safe w (step action w).
Proof.
  intros Hready. pose proof Hready as [[Hlo Hhi] Hdelay].
  destruct action as [| |event cb|event cb|event data| |reason|msg|event d|]; simpl.
  - by apply connect_safe.
  - destruct (disconnect_run w) as (a & t & -> & Ht).
    destruct (socket (mgr w)) as [s|].
    + apply stays_safe_intro; try done.
      change (IoDisconnect (sid s) :: t) with ([IoDisconnect (Data:=Data) (sid s)] ++ t).
      rewrite timeouts_app. by destruct (internal_trace t Ht) as (_ & _ & _ & ->).
    + by apply stays_safe_same.
  - unfold on, set_mgr, modify.
    apply stays_safe_fields; try done; by case_decide.
  - unfold unsubscribe, set_mgr, modify.
    apply stays_safe_fields; try done;
      destruct (listeners (mgr w) !! event); try done; by case_decide.
  - rewrite sendEvent_run. apply stays_safe_intro; try done.
    by destruct (socket (mgr w)) as [[i []]|].
  - destruct (onConnect_run w) as (a & t & -> & Ht).
    pose proof (io_sets_connected_fields true (mgr w)) as (_ & Hm & Hd & _).
    apply internal_safe; try done.
    unfold attempts_in_range. simpl. rewrite Hm. lia.
  - destruct (onDisconnect_run reason w) as (a & t & -> & Ht).
    pose proof (io_sets_connected_fields false (mgr w)) as (Ha & Hm & Hd & _).
    assert (stays_safe w
              (mkWorld (set_isConnected false (io_sets_connected false (mgr w)))
                       a (authToken w) (next_sid w) (trace w ++ t), Normal tt)) as Hfirst.
    { apply internal_safe; try done. unfold attempts_in_range. simpl. by rewrite Ha, Hm. }
    case_decide; [|exact Hfirst].
    eapply stays_safe_trans; [exact Hfirst|].
    apply handleReconnect_safe. by eapply stays_ready.
  - destruct (onConnectError_run msg w) as (a & t & -> & Ht).
    pose proof (io_sets_connected_fields false (mgr w)) as (Ha & Hm & Hd & _).
    assert (stays_safe w
              (mkWorld (set_isConnected false (io_sets_connected false (mgr w)))
                       a (authToken w) (next_sid w) (trace w ++ t), Normal tt)) as Hfirst.
    { apply internal_safe; try done. unfold attempts_in_range. simpl. by rewrite Ha, Hm. }
    eapply stays_safe_trans; [exact Hfirst|].
    apply handleReconnect_safe. by eapply stays_ready.
  - unfold onServerEvent.
    destruct (emit_internal event (ServerData d) w) as (a & t & -> & Ht).
    by apply internal_safe.
  - unfold reconnectTimer. rewrite (bind_run get _ _ _ _ eq_refl).
    destruct (isConnected (mgr w)); simpl; [by apply stays_safe_same | by apply connect_safe].
Qed.

(** X23.  Whatever the application calls and whatever the socket and the
    timer do, in any order, a manager that starts with its counter within
    range and a base delay that is not negative never throws, keeps the
    counter between 0 and the maximum, keeps its configuration, and sets
    only timers whose delay lies between the base delay and the base delay
    times 2^(max - 1). *)
Theorem manager_stays_safe (actions : list (Action Data App)) w :
  ready w → stays_safe w (run actions w).
Proof.
  revert w. induction actions as [|action actions IH]; intros w Hready.
  - by apply stays_safe_same.
  - unfold run. simpl. unfold bind.
    pose proof (step_safe action w Hready) as Hstep.
    destruct (step action w) as [w1 r] eqn:Hrun.
    pose proof Hstep as (Hr & _). simpl in Hr. subst r.
    eapply stays_safe_trans; [exact Hstep|].
    apply IH. by eapply stays_ready.
Qed.
End SocketMore.

Lemma manager_stays_safe_witness :
  SocketOps.ready Samples.world0 ∧
  SocketOps.stays_safe Samples.world0
    (SocketOps.run [SocketOps.CallConnect; SocketOps.SocketConnectError "xhr poll error";
                    SocketOps.TimerFired; SocketOps.SocketConnect;
                    SocketOps.SocketDisconnect "io server disconnect"] Samples.world0).
Proof.
  assert (Hready : SocketOps.ready Samples.world0).
  { unfold SocketOps.ready, SocketOps.attempts_in_range. simpl. lia. }
  split; [exact Hready|].
  apply (manager_stays_safe _ Samples.world0 Hready).
Defined.

Section SocketLifecycle.
Import Socket SocketOps.
Local Open Scope eff_scope.
Context {Data App : Type}.
Variable room_object : string -> Payload Data.
Variable Number_toString : Z -> string.

Implicit Types (w : World Data App) (m : Manager Data App).

Local Abbreviation initializeSocketConnection :=
  (initializeSocketConnection (App:=App) room_object Number_toString).
Local Abbreviation cleanupSocketConnection :=
  (cleanupSocketConnection (App:=App) room_object Number_toString).

Lemma sent_app (t1 t2 : list (Effect Data)) : sent (t1 ++ t2) = sent t1 ++ sent t2.
Proof. apply omap_app. Qed.

Lemma closed_app (t1 t2 : list (Effect Data)) : closed (t1 ++ t2) = closed t1 ++ closed t2.
Proof. apply omap_app. Qed.

Lemma opened_app (t1 t2 : list (Effect Data)) : opened (t1 ++ t2) = opened t1 ++ opened t2.
Proof. apply omap_app. Qed.

(** X24.  [initializeSocketConnection] asks to join the user's room right
    after [connect()], when a socket that was just created is not connected
    yet: the request is sent only if a connected socket existed before the
    call; otherwise nothing is sent.  Without a current user nothing is
    sent either, and for a session that is not authenticated the call does
    nothing at all.  It never throws. *)
Theorem initializeSocketConnection_join w (user : User.t) :
  let join := ("joinRoom", room_object (userRoom Number_toString user)) in
  result (initializeSocketConnection true (Some user)) w = Normal tt ∧
  sent (trace (exec (initializeSocketConnection true (Some user)) w)) =
    sent (trace w) ++ (if socket_connected (mgr w) then [join] else []) ∧
  sent (trace (exec (initializeSocketConnection true None) w)) = sent (trace w) ∧
  exec (initializeSocketConnection false (Some user)) w = w.
Proof.
  cbn zeta. unfold result, exec, SocketOps.initializeSocketConnection.
  rewrite !(bind_run connect _ w _ tt (connect_run w)).
  unfold joinUserRoom, joinRoom, ret. rewrite sendEvent_run.
  destruct w as [m a tok n tr]. unfold socket_connected. simpl.
  destruct m as [[[i []]|] ic ra mx rd ls]; simpl;
    (destruct tok as [token|]; [destruct (decide (token = ""))|]); simpl;
    rewrite ?sent_app; simpl; rewrite ?app_nil_r; done.
Qed.

(** X25.  [cleanupSocketConnection] never throws and leaves the manager
    without a socket, having disconnected the socket it held.  The request
    to leave the user's room is sent only if there is a current user and the
    socket is connected; with no current user, as after [logout], nothing
    is sent. *)
Theorem cleanupSocketConnection_outcome w (currentUser : option User.t) :
  let stop := cleanupSocketConnection currentUser in
  result stop w = Normal tt ∧
  socket (mgr (exec stop w)) = None ∧
  sent (trace (exec stop w)) =
    sent (trace w) ++
    match currentUser with
    | Some user =>
        if socket_connected (mgr w)
        then [("leaveRoom", room_object (userRoom Number_toString user))] else []
    | None => []
    end ∧
  closed (trace (exec stop w)) =
    closed (trace w) ++ match socket (mgr w) with Some s => [sid s] | None => [] end.
Proof.
  cbn zeta. unfold result, exec, SocketOps.cleanupSocketConnection.
  assert (∃ w1, leaveUserRoom room_object Number_toString currentUser w = (w1, Normal tt) ∧
                mgr w1 = mgr w ∧
                sent (trace w1) =
                  sent (trace w) ++
                  match currentUser with
                  | Some user =>
                      if socket_connected (mgr w)
                      then [("leaveRoom", room_object (userRoom Number_toString user))]
                      else []
                  | None => []
                  end ∧
                closed (trace w1) = closed (trace w)) as (w1 & Hleave & Hm & Hsent & Hclosed).
  { destruct currentUser as [user|]; simpl.
    - unfold leaveRoom. rewrite sendEvent_run. eexists. split; [reflexivity|]. simpl.
      rewrite sent_app, closed_app. unfold socket_connected.
      destruct (socket (mgr w)) as [[i []]|]; simpl; by rewrite ?app_nil_r.
    - exists w. by rewrite app_nil_r. }
  rewrite (bind_run _ _ _ _ _ Hleave).
  destruct (disconnect_run w1) as (a & t & -> & Ht). simpl.
  destruct (internal_trace t Ht) as (_ & Hc & Hs & _).
  rewrite Hm. destruct (socket (mgr w)) as [s|] eqn:Hsock; simpl.
  - change (IoDisconnect (sid s) :: t) with ([IoDisconnect (Data:=Data) (sid s)] ++ t).
    rewrite !sent_app, !closed_app, Hc, Hs, Hsent, Hclosed. simpl.
    by rewrite !app_nil_r.
  - rewrite Hm, Hsock, Hsent, Hclosed. by rewrite app_nil_r.
Qed.

(** X26.  The handler of the socket's ['disconnect'] never throws and sets
    [isConnected] to false.  It sets a reconnect timer, and counts an
    attempt, only when the reason is a disconnect by the server and the
    counter is below the maximum; for every other reason (a lost transport,
    a ping timeout, a disconnect by the client) nothing is scheduled.  It
    never opens a socket itself. *)
Theorem onDisconnect_reconnect_rule (reason : string) w :
  let w' := exec (onDisconnect reason) w in
  let retry := bool_decide (reason = "io server disconnect") &&
               bool_decide (reconnectAttempts (mgr w) < maxReconnectAttempts (mgr w)) in
  result (onDisconnect reason) w = Normal tt ∧
  isConnected (mgr w') = false ∧
  isSocketConnected (mgr w') = false ∧
  timeouts (trace w') =
    timeouts (trace w) ++
    (if retry then [reconnectDelay (mgr w) * 2 ^ reconnectAttempts (mgr w)] else []) ∧
  reconnectAttempts (mgr w') =
    (if retry then reconnectAttempts (mgr w) + 1 else reconnectAttempts (mgr w)) ∧
  opened (trace w') = opened (trace w).
Proof.
  cbn zeta. unfold result, exec.
  destruct (onDisconnect_run reason w) as (a & t & -> & Ht).
  destruct (internal_trace t Ht) as (Ho & _ & _ & Htime).
  pose proof (io_sets_connected_fields false (mgr w)) as (Ha & Hm & Hd & _).
  destruct (decide (reason = "io server disconnect")) as [->|Hne].
  - rewrite bool_decide_true by done. simpl.
    match goal with |- context [handleReconnect ?w0] =>
      destruct (handleReconnect_run w0) as (a' & t' & -> & Ho' & _ & _ & Htime') end.
    simpl in *. rewrite Ha, Hm, Hd in *.
    rewrite !timeouts_app, !opened_app, Ho, Ho', Htime, Htime', !app_nil_r.
    destruct (decide (reconnectAttempts (mgr w) < maxReconnectAttempts (mgr w))).
    + rewrite bool_decide_true by done. by repeat split.
    + rewrite bool_decide_false by done. simpl. rewrite Ha, app_nil_r. by repeat split.
  - rewrite bool_decide_false by done. unfold ret. simpl.
    rewrite timeouts_app, opened_app, Ho, Htime, Ha, !app_nil_r. by repeat split.
Qed.

(** X27.  A successful connection restarts the backoff: after the handler
    of ['connect'], [isConnected] is true and the next [handleReconnect]
    counts attempt 1 and waits the base delay, whatever the counter was
    before (for a positive maximum); and a reconnect timer that fires after
    the connection is back does nothing. *)
Theorem connection_restarts_backoff w :
  0 < maxReconnectAttempts (mgr w) →
  isConnected (mgr (exec onConnect w)) = true ∧
  reconnectAttempts (mgr (exec (onConnect ;; handleReconnect) w)) = 1 ∧
  timeouts (trace (exec (onConnect ;; handleReconnect) w)) =
    timeouts (trace w) ++ [reconnectDelay (mgr w)] ∧
  exec (onConnect ;; reconnectTimer) w = exec onConnect w.
Proof.
  intros Hmax. unfold exec.
  destruct (onConnect_run w) as (a & t & Hrun & Ht).
  destruct (internal_trace t Ht) as (_ & _ & _ & Htime).
  pose proof (io_sets_connected_fields true (mgr w)) as (Ha & Hm & Hd & _).
  rewrite !(bind_run _ _ _ _ _ Hrun), Hrun. simpl. split; [done|].
  match goal with |- context [handleReconnect ?w0] =>
    destruct (handleReconnect_run w0) as (a' & t' & -> & _ & _ & _ & Htime') end.
  simpl in *. rewrite Hm, Hd in *.
  destruct (decide (0 < maxReconnectAttempts (mgr w))) as [_|]; [|lia].
  simpl. rewrite !timeouts_app, Htime, Htime', app_nil_r.
  split; [lia|]. split; [f_equal; f_equal; lia | done].
Qed.
End SocketLifecycle.

Lemma connection_restarts_backoff_witness :
  0 < Socket.maxReconnectAttempts (Socket.mgr Samples.world0) ∧
  Socket.timeouts (Socket.trace
    (exec (bind Socket.onConnect (fun _ => Socket.handleReconnect)) Samples.world0)) =
  Socket.timeouts (Socket.trace Samples.world0) ++ [1000].
Proof.
  assert (H : 0 < Socket.maxReconnectAttempts (Socket.mgr Samples.world0)) by (simpl; lia).
  split; [exact H|].
  apply (connection_restarts_backoff Samples.world0 H).
Defined.

(** * Properties of the validation helpers *)

Section ValidationFacts.
Import Validation.

Lemma toLowerCase_empty (code : string) : toLowerCase code = "" → code = "".
Proof. by destruct code. Qed.

(** X28.  The availability check [isValidCustomCode] is the form's rule
    [validateCustomCode] plus the reserved words: a code is accepted by the
    check exactly when the form's rule accepts it and it is empty or not a
    reserved word in lower case.  So every code that the check accepts
    passes the form, and the form accepts reserved words. *)
Theorem isValidCustomCode_refines_schema (code : string) :
  isValidCustomCode code =
    (validateCustomCode code).1 &&
    (bool_decide (code = "") || negb (bool_decide (toLowerCase code ∈ reservedWords))).
Proof.
  unfold isValidCustomCode, validateCustomCode.
  destruct (decide (code = "")) as [->|Hne]; [done|].
  rewrite (bool_decide_false (code = "")) by done. cbn zeta.
  destruct (matches_code_chars code);
    destruct (Nat.ltb_spec (String.length code) 3), (Nat.ltb_spec 20 (String.length code)),
      (Nat.leb_spec 3 (String.length code)), (Nat.leb_spec (String.length code) 20);
    simpl; try done; lia.
Qed.

(** X29.  No reserved word is accepted by [isValidCustomCode], in whatever
    mix of upper and lower case it is written; and a code that is accepted
    and not empty has between 3 and 20 characters, all of them letters,
    digits, dashes or underscores. *)
Theorem isValidCustomCode_sound (code : string) :
  (toLowerCase code ∈ reservedWords → isValidCustomCode code = false) ∧
  (isValidCustomCode code = true → code ≠ "" →
     (3 ≤ String.length code ≤ 20)%nat ∧ all_chars is_code_char code = true ∧
     toLowerCase code ∉ reservedWords).
Proof.
  unfold isValidCustomCode. split.
  - intros Hin. case_decide as Hempty.
    + subst code. by vm_compute in Hin; repeat (apply elem_of_cons in Hin as [Hin|Hin];
        [discriminate|]); apply elem_of_nil in Hin.
    + destruct (_ || _)%bool; [done|]. destruct (negb _); [done|].
      by rewrite bool_decide_true.
  - intros Hvalid Hne. rewrite decide_False in Hvalid by done.
    destruct ((String.length code <? 3)%nat) eqn:H3; [done|].
    destruct ((20 <? String.length code)%nat) eqn:H20; [done|]. simpl in Hvalid.
    apply Nat.ltb_ge in H3, H20.
    unfold matches_code_chars in Hvalid.
    rewrite (bool_decide_false (code = "")) in Hvalid by done. simpl in Hvalid.
    destruct (all_chars is_code_char code); [|done]. simpl in Hvalid.
    apply negb_true_iff, bool_decide_eq_false in Hvalid. repeat split; try done; lia.
Qed.
End ValidationFacts.

Section ExpirationFacts.
Variable Date_parse : string -> option Z.

(** X30.  The form's rule for expiration dates and the hook's test for
    active records are the same condition: at any time, a date is accepted
    by [validateExpirationDate] exactly when a record with that expiration
    date is active, so a record created with an accepted date is not
    expired at that time. *)
Theorem validateExpirationDate_agrees_with_active (date : string) (now : Z) (url : ShortUrl.t) :
  ShortUrl.expirationDate url = Some date →
  Validation.validateExpirationDate Date_parse date now =
    UrlQueries.active_test Date_parse now url ∧
  (Validation.validateExpirationDate Date_parse date now = true →
     UrlQueries.expired_test Date_parse now url = false ∧
     UrlQueries.isExpired Date_parse (Some date) now = false).
Proof.
  intros Hdate.
  unfold Validation.validateExpirationDate, UrlQueries.active_test, UrlQueries.expired_test,
    UrlQueries.isExpired.
  rewrite Hdate. case_decide; [done|].
  destruct (Date_parse date) as [t|]; [|done].
  split; [done|]. rewrite !bool_decide_eq_true, !bool_decide_eq_false. lia.
Qed.
End ExpirationFacts.

Lemma validateExpirationDate_agrees_with_active_witness :
  let parse := fun s : string => if decide (s = "2030-01-01") then Some 1893456000000 else None in
  let record := ShortUrl.mk 1 "https://example.org/page" "abc123" (Some "2030-01-01") 0
                            Samples.alice "2024-01-01T00:00:00Z" "2024-01-01T00:00:00Z" None in
  ShortUrl.expirationDate record = Some "2030-01-01" ∧
  Validation.validateExpirationDate parse "2030-01-01" 1700000000000 =
    UrlQueries.active_test parse 1700000000000 record.
Proof.
  cbn zeta. split; [reflexivity|].
  apply (validateExpirationDate_agrees_with_active
           (fun s : string => if decide (s = "2030-01-01") then Some 1893456000000 else None)
           "2030-01-01" 1700000000000
           (ShortUrl.mk 1 "https://example.org/page" "abc123" (Some "2030-01-01") 0
                        Samples.alice "2024-01-01T00:00:00Z" "2024-01-01T00:00:00Z" None)
           eq_refl).
Defined.

Lemma connect_twice_while_pending_witness :
  Socket.socket_connected (Socket.mgr Samples.world0) = false ∧
  Socket.authToken Samples.world0 = Some "header.payload.signature" ∧
  "header.payload.signature" ≠ "" ∧
  ∃ t, Socket.trace (exec (bind Socket.connect (fun _ => Socket.connect)) Samples.world0) =
         Socket.trace Samples.world0 ++ t ∧
       SocketOps.opened t = [(0%nat, "header.payload.signature");
                             (1%nat, "header.payload.signature")] ∧
       SocketOps.closed t = [] ∧
       Socket.socket (Socket.mgr (exec (bind Socket.connect (fun _ => Socket.connect))
                                       Samples.world0)) =
         Some (Socket.mkHandle 1 false).
Proof.
  assert (H : "header.payload.signature" ≠ "") by discriminate.
  split; [reflexivity|]. split; [reflexivity|]. split; [exact H|].
  apply (connect_twice_while_pending Samples.world0 "header.payload.signature"
           eq_refl eq_refl H).
Defined.
